(** * Hacker News /newest ordering check: age parser, accumulator, validator, run

    A shallow embedding of the two editions of [index.js]: the plain script
    (module [Plain]) and the edition with structured validation results,
    artifacts and a summary (the top level of this file).  The pure parts
    ([parseAgeToSeconds], the collection loops, [validateSortedNewestToOldest])
    are Rocq functions; the browser, the file system and the feed are an
    explicit [World] the run consults.  The reading of the rows of a page,
    the time stamp of the artifacts and the [failureContext] of the roadmap
    are modelled as well. *)

From Stdlib Require Import NArith String Ascii Bool Lia DecimalString.
From stdpp Require Import base list gmap.

(* ===================================================================== *)
(** * JavaScript numbers                                                   *)
(* ===================================================================== *)

(** The only numbers the script computes with are the non-negative integers
    that [Number] reads from a run of decimal digits and their products with
    positive integer literals.  They are IEEE-754 doubles: every operation
    returns the double nearest to the exact result (ties to the even
    significand), and [Infinity] from 2^1024 - 2^970 on.  No NaN, negative
    number or fraction can arise from these operations. *)
Module JsNumber.
Local Open Scope N_scope.

Inductive number : Type :=
| Finite (n : N)
| Infinity.

(** Round a non-negative integer to the nearest double. Below 2^53 every
    integer is a double; above, [e] low bits are cut off, and the kept
    53-bit significand [q] goes up when the cut part [r] is more than half
    a unit, or exactly half with [q] odd. *)
Definition round (z : N) : number :=
  if z <? 2 ^ 53 then Finite z
  else
    let e := N.log2 z - 52 in
    let q := N.shiftr z e in
    let r := z mod 2 ^ e in
    let half := 2 ^ (e - 1) in
    let q' := if (half <? r) || ((r =? half) && N.odd q) then q + 1 else q in
    let v := q' * 2 ^ e in
    if 2 ^ 1024 <=? v then Infinity else Finite v.

(** [x * k] for a positive integer literal [k]. *)
Definition mul (x : number) (k : positive) : number :=
  match x with
  | Finite n => round (n * Npos k)
  | Infinity => Infinity
  end.

(** [x < y] *)
Definition ltb (x y : number) : bool :=
  match x, y with
  | Finite a, Finite b => a <? b
  | Finite _, Infinity => true
  | Infinity, _ => false
  end.

(** [x <= y] as a proposition: the order the validator checks. *)
Definition le (x y : number) : Prop := ltb y x = false.

(** The largest integer up to which all integers are doubles. *)
Definition MAX_EXACT : N := 2 ^ 53.
End JsNumber.
Export JsNumber.

Infix "*~" := JsNumber.mul (at level 40, left associativity).

(* ===================================================================== *)
(** * JavaScript strings                                                   *)
(* ===================================================================== *)

(** A string is its sequence of UTF-16 code units. *)
Abbreviation jsstring := (list N).

(** A string literal of the source (ASCII only). *)
Fixpoint lit (s : string) : jsstring :=
  match s with
  | EmptyString => []
  | String c s' => N_of_ascii c :: lit s'
  end.

Section CodeUnits.
Local Open Scope N_scope.

(** [\d] without the [u] flag: the ASCII digits. *)
Definition is_digit (c : N) : bool := (48 <=? c) && (c <=? 57).

(** [\s], which is also what [trim] removes: WhiteSpace and
    LineTerminator of ECMAScript. *)
Definition is_space (c : N) : bool :=
  ((9 <=? c) && (c <=? 13))            (* TAB LF VT FF CR *)
  || (c =? 32) || (c =? 160)           (* SP NBSP *)
  || (c =? 5760)                       (* U+1680 *)
  || ((8192 <=? c) && (c <=? 8202))    (* U+2000 .. U+200A *)
  || (c =? 8232) || (c =? 8233)        (* LS PS *)
  || (c =? 8239) || (c =? 8287)        (* U+202F U+205F *)
  || (c =? 12288) || (c =? 65279).     (* U+3000 U+FEFF *)

Definition is_upper (c : N) : bool := (65 <=? c) && (c <=? 90).
Definition is_lower (c : N) : bool := (97 <=? c) && (c <=? 122).

(** Canonicalize of a regex with the [i] flag and no [u] flag, on the
    code units that can equal the canonical form of an ASCII pattern
    character: a lower-case ASCII letter goes to upper case; a code unit
    from 128 on never canonicalizes to an ASCII one, so leaving it alone
    decides the comparison the same way. *)
Definition canonicalize (c : N) : N := if is_lower c then c - 32 else c.

(** [toLowerCase] on the code units the regex can capture (ASCII). *)
Definition lower (c : N) : N := if is_upper c then c + 32 else c.

Definition digit_value (c : N) : N := c - 48.
End CodeUnits.

Definition toLowerCase (s : jsstring) : jsstring := map lower s.

Fixpoint dropWhile (p : N -> bool) (s : jsstring) : jsstring :=
  match s with
  | [] => []
  | c :: s' => if p c then dropWhile p s' else s
  end.

Fixpoint takeWhile (p : N -> bool) (s : jsstring) : jsstring :=
  match s with
  | [] => []
  | c :: s' => if p c then c :: takeWhile p s' else []
  end.

(** [s.trim()] *)
Definition trim (s : jsstring) : jsstring :=
  rev (dropWhile is_space (rev (dropWhile is_space s))).

(** [s.startsWith(w)] *)
Fixpoint startsWith (s w : jsstring) : bool :=
  match w, s with
  | [], _ => true
  | _ :: _, [] => false
  | a :: w', c :: s' => (c =? a)%N && startsWith s' w'
  end.

(** The mathematical value of a run of decimal digits, and [Number] of it:
    the nearest double.  (For more than 20 significant digits ECMAScript
    lets an engine round from the first 20; V8 and the others round the
    full value, which is what is modelled.) *)
Definition decimal (ds : jsstring) : N :=
  fold_left (fun acc c => (10 * acc + digit_value c)%N) ds 0%N.

Definition Number (ds : jsstring) : number := JsNumber.round (decimal ds).

(* ===================================================================== *)
(** * The regular expression of [parseAgeToSeconds]                        *)
(* ===================================================================== *)

(** [/^(\d+)\s+(minute|minutes|hour|hours|day|days)\s+ago$/i], piece by
    piece.  [\d+] and the [\s+] after it are greedy, and giving back a
    character could never help: what follows [\d+] must be a space and what
    follows [\s+] a letter.  The alternation is tried left to right, and an
    alternative is given up when the rest of the pattern fails after it. *)

(** Match the pattern word [w] case-insensitively at the start of [s]:
    the matched text and what is left. *)
Fixpoint match_word (w s : jsstring) : option (jsstring * jsstring) :=
  match w, s with
  | [], _ => Some ([], s)
  | _ :: _, [] => None
  | a :: w', c :: s' =>
      if (canonicalize c =? canonicalize a)%N then
        match match_word w' s' with
        | Some (u, r) => Some (c :: u, r)
        | None => None
        end
      else None
  end.

(** [\s+ago$] *)
Definition match_tail (s : jsstring) : bool :=
  match takeWhile is_space s with
  | [] => false
  | _ :: _ =>
      match match_word (lit "ago") (dropWhile is_space s) with
      | Some (_, []) => true
      | _ => false
      end
  end.

Definition unit_words : list jsstring :=
  [lit "minute"; lit "minutes"; lit "hour"; lit "hours"; lit "day"; lit "days"].

(** [(minute|minutes|hour|hours|day|days)\s+ago$]: the text captured by the
    group. *)
Fixpoint match_unit (alts : list jsstring) (s : jsstring) : option jsstring :=
  match alts with
  | [] => None
  | w :: alts' =>
      match match_word w s with
      | Some (u, r) => if match_tail r then Some u else match_unit alts' s
      | None => match_unit alts' s
      end
  end.

(** The whole match: [m[1]] and [m[2]], or [None] for JavaScript's [null]. *)
Definition regex_match (s : jsstring) : option (jsstring * jsstring) :=
  match takeWhile is_digit s with
  | [] => None
  | (_ :: _) as m1 =>
      let r := dropWhile is_digit s in
      match takeWhile is_space r with
      | [] => None
      | _ :: _ =>
          match match_unit unit_words (dropWhile is_space r) with
          | Some m2 => Some (m1, m2)
          | None => None
          end
      end
  end.

(** [parseAgeToSeconds] of the edition with artifacts: the products are
    computed left to right, [n * 60 * 60] and [n * 24 * 60 * 60].
    [(ageText || '')] is [ageText] for every string. *)
Definition parseAgeToSeconds (ageText : jsstring) : option number :=
  match regex_match (trim ageText) with
  | None => None
  | Some (m1, m2) =>
      let n := Number m1 in
      let unit := toLowerCase m2 in
      if startsWith unit (lit "minute") then Some (n *~ 60)
      else if startsWith unit (lit "hour") then Some (n *~ 60 *~ 60)
      else if startsWith unit (lit "day") then Some (n *~ 24 *~ 60 *~ 60)
      else None
  end.

(* ===================================================================== *)
(** * Records, items and messages                                          *)
(* ===================================================================== *)

(** What [getItemsOnPage] extracts from a row: [{ id, title, age }].  A row
    without an [id] attribute gets the empty string. *)
Module Raw.
Record t : Type := mk { id : jsstring; title : jsstring; age : jsstring }.
End Raw.

(** A collected item: the record's fields and [ageSeconds], which is
    [null] ([None]) for a label that did not parse. *)
Record Item : Type := mkItem {
  id : jsstring;
  title : jsstring;
  age : jsstring;
  ageSeconds : option number;
}.

(** [{ ...it, ageSeconds: a }] *)
Definition withAgeSeconds (it : Raw.t) (a : option number) : Item :=
  {| id := Raw.id it; title := Raw.title it; age := Raw.age it; ageSeconds := a |}.

(** The calls into Playwright and the file system that can throw. *)
Inductive Operation : Type :=
| PageGoto              (* page.goto(START_URL) *)
| WaitForRows           (* page.waitForSelector('tr.athing') *)
| WaitForMore           (* page.locator('a.morelink').waitFor *)
| ArtifactWrite         (* page.screenshot, page.content, fs.writeFileSync *)
| SummaryWrite.         (* ensureDir, fs.writeFileSync of the summary *)

(** A template string, kept as its pieces: literal text, interpolated
    strings and numbers.  [Thrown op] stands for the message text of the
    error a failed external call throws. *)
Inductive Frag : Type :=
| Text (s : string)
| Quote                                (* the double-quote character *)
| Newline
| Str (s : jsstring)
| Int (n : nat)
| Num (x : option number)
| Thrown (op : Operation).

Abbreviation Message := (list Frag).

Inductive Exn : Type :=
| Error (message : Message)            (* new Error(message) *)
| Failed (op : Operation).             (* thrown by an external call *)

(** [e?.message || String(e)] *)
Definition message_of (e : Exn) : Message :=
  match e with
  | Error m => m
  | Failed op => [Thrown op]
  end.

Inductive Completion (A : Type) : Type :=
| Normal (a : A)
| Throw (e : Exn).
Arguments Normal {A} a.
Arguments Throw {A} e.

(* ===================================================================== *)
(** * The sequence validator                                               *)
(* ===================================================================== *)

Inductive Kind : Type := PARSE_ERROR | SORT_VIOLATION.

(** [{ ok: false, kind, index, message, prev, curr }] *)
Record Failure : Type := mkFailure {
  kind : Kind;
  index : nat;
  message : Message;
  prev : Item;
  curr : Item;
}.

(** [{ ok: true }] or a failure. *)
Inductive ValidationResult : Type :=
| Ok
| NotOk (f : Failure).

Definition parse_error (i : nat) (prev curr : Item) : Failure :=
  {| kind := PARSE_ERROR;
     index := i;
     message :=
       [Text "Could not parse age string(s)."; Newline;
        Text "prev: "; Quote; Str (age prev); Quote; Text " (id="; Str (id prev); Text ")"; Newline;
        Text "curr: "; Quote; Str (age curr); Quote; Text " (id="; Str (id curr); Text ")"];
     prev := prev;
     curr := curr |}.

Definition sort_violation (i : nat) (prev curr : Item) : Failure :=
  {| kind := SORT_VIOLATION;
     index := i;
     message :=
       [Text "Sorting violation at position "; Int (i + 1); Text "."; Newline;
        Text "prev: "; Quote; Str (title prev); Quote; Text " | "; Str (age prev);
        Text " ("; Num (ageSeconds prev); Text "s) | id="; Str (id prev); Newline;
        Text "curr: "; Quote; Str (title curr); Quote; Text " | "; Str (age curr);
        Text " ("; Num (ageSeconds curr); Text "s) | id="; Str (id curr)];
     prev := prev;
     curr := curr |}.

(** The body of the [for] loop at index [i], with [prev = items[i-1]] and
    [rest] the items from index [i] on. *)
Fixpoint validate_from (i : nat) (prev : Item) (rest : list Item) : ValidationResult :=
  match rest with
  | [] => Ok
  | curr :: rest' =>
      match ageSeconds prev, ageSeconds curr with
      | Some p, Some c =>
          if JsNumber.ltb c p then NotOk (sort_violation i prev curr)
          else validate_from (S i) curr rest'
      | _, _ => NotOk (parse_error i prev curr)
      end
  end.

(** [for (let i = 1; i < items.length; i++)] *)
Definition validateSortedNewestToOldest (items : list Item) : ValidationResult :=
  match items with
  | [] => Ok
  | first :: rest => validate_from 1 first rest
  end.

(* ===================================================================== *)
(** * The collection loops                                                 *)
(* ===================================================================== *)

(** [collected] and [seen], the two variables the loops update. *)
Record CollectedSet : Type := mkSet {
  collected : list Item;
  seen : gset jsstring;
}.

Definition empty_set : CollectedSet := {| collected := []; seen := ∅ |}.

Section Collect.
(** The age parser of the edition at hand, and the target count
    ([COUNT], or [TARGET] in the plain script). *)
Variable parse : jsstring -> option number.
Variable COUNT : nat.

(** [!it.id || seen.has(it.id)] *)
Definition skip (it : Raw.t) (cs : CollectedSet) : bool :=
  match Raw.id it with
  | [] => true
  | _ :: _ => bool_decide (Raw.id it ∈ seen cs)
  end.

(** [seen.add(it.id); collected.push({ ...it, ageSeconds: parse(it.age) })] *)
Definition push (it : Raw.t) (cs : CollectedSet) : CollectedSet :=
  {| collected := collected cs ++ [withAgeSeconds it (parse (Raw.age it))];
     seen := {[Raw.id it]} ∪ seen cs |}.

(** [for (const it of pageItems) { ... }], with its [continue] and its
    [break] at [collected.length === COUNT]. *)
Fixpoint collectPage (pageItems : list Raw.t) (cs : CollectedSet) : CollectedSet :=
  match pageItems with
  | [] => cs
  | it :: rest =>
      if skip it cs then collectPage rest cs
      else
        let cs' := push it cs in
        if length (collected cs') =? COUNT then cs'
        else collectPage rest cs'
  end.

(** The accumulator fed a sequence of batches: the [while] guard
    [collected.length < COUNT] decides whether a batch is looked at. *)
Fixpoint accumulate (batches : list (list Raw.t)) (cs : CollectedSet) : CollectedSet :=
  match batches with
  | [] => cs
  | batch :: later =>
      if length (collected cs) <? COUNT then accumulate later (collectPage batch cs)
      else cs
  end.

(** [getItemsOnPage]: [waitForSelector] times out on a page without rows.
    A page is given by the records that the callback of [page.evaluate]
    returns for it.  The wait is for the first row to be visible: a page
    whose rows are there but whose first row never shows is, for the loop,
    a page on which the wait times out, and is listed as the empty list.
    A rejection of [page.evaluate] itself has no counterpart here. *)
Definition getItemsOnPage (page : list Raw.t) : Completion (list Raw.t) :=
  match page with
  | [] => Throw (Failed WaitForRows)
  | _ :: _ => Normal page
  end.

(** The [while] loop on the page shown, with the pages that the More link
    leads to one after the other; the link is missing on the last one, where
    [more.waitFor] times out.  The result is the state of [collected],
    [seen] and [pagesVisited] when the loop is left, and the exception it
    was left with, if any.  Of the step to the next page only the wait for
    the link can fail here: a rejection of [more.click()] or of
    [page.waitForLoadState] has no counterpart, so that what is proved of
    every [crawl] is proved of the runs in which these two calls succeed. *)
Fixpoint crawl (page : list Raw.t) (more : list (list Raw.t))
    (cs : CollectedSet) (pagesVisited : nat) : CollectedSet * nat * option Exn :=
  if length (collected cs) <? COUNT then
    match getItemsOnPage page with
    | Throw e => (cs, pagesVisited, Some e)
    | Normal pageItems =>
        let cs' := collectPage pageItems cs in
        if length (collected cs') <? COUNT then
          match more with
          | [] => (cs', pagesVisited, Some (Failed WaitForMore))
          | next :: more' => crawl next more' cs' (S pagesVisited)
          end
        else (cs', pagesVisited, None)
    end
  else (cs, pagesVisited, None).

(** [`Expected EXACTLY ${COUNT} items, got ${collected.length}.`] *)
Definition expected_exactly (got : nat) : Message :=
  [Text "Expected EXACTLY "; Int COUNT; Text " items, got "; Int got; Text "."].
End Collect.

(* ===================================================================== *)
(** * The run                                                              *)
(* ===================================================================== *)

(** The [ARTIFACTS] setting: the three documented values, and any other
    text, for which no caller writes. *)
Inductive ArtifactsMode : Type := on_fail | always | off | other.

(** The settings read from the environment that the run depends on.
    [COUNT] is taken to be a natural number, as the script expects it: the
    default 100, and what [COUNT=<digits>] gives.  [Number] of another text
    (a fraction, a negative number, no number at all) gives a value on which
    [collected.length < COUNT] and [collected.length === COUNT] are not the
    tests below, and nothing here is about a run with such a setting. *)
Record Config : Type := mkConfig {
  COUNT : nat;
  ARTIFACTS : ArtifactsMode;
}.

(** What the run meets outside itself, from [page.goto] on: the browser is
    taken to be launched, and closed at the end, without an exception. *)
Record World : Type := mkWorld {
  goto_ok : bool;                        (* the start page loads *)
  start_page : list Raw.t;               (* its rows *)
  more_pages : list (list Raw.t);        (* the pages behind the More links *)
  pass_artifacts_ok : bool;              (* the write labelled 'pass' completes *)
  fail_artifacts_ok : bool;              (* the write labelled 'fail' completes *)
  summary_ok : bool;                     (* the summary write completes *)
}.

Inductive Status : Type := PASS | FAIL.
Inductive Label : Type := pass | fail.

(** The arguments of [writeSummary] that the run decides. *)
Record Summary : Type := mkSummary {
  summary_count : nat;
  summary_pagesVisited : nat;
  summary_status : Status;
  summary_detail : option Message;
}.

(** A line on the console: [PASS: First ... sorted] on standard output or
    [FAIL: ${msg}] on standard error. *)
Inductive Line : Type :=
| LogPass
| ErrorFail (msg : Message).

(** The variables of the run when it ends. [exitCode] is [process.exitCode];
    [rejected] is the exception that leaves the [async] function, if any. *)
Record Outcome : Type := mkOutcome {
  status : Status;
  exitCode : option nat;
  detail : Message;
  console : list Line;
  pagesVisited : nat;
  items : list Item;
  validationResult : option ValidationResult;
  artifacts : list Label;
  summary : option Summary;
  rejected : option Exn;
}.

(** [writeArtifacts]: nothing with [ARTIFACTS === 'off']. *)
Definition writeArtifacts (cfg : Config) (w : World) (label : Label) : Completion (list Label) :=
  match ARTIFACTS cfg with
  | off => Normal []
  | _ =>
      if match label with pass => pass_artifacts_ok w | fail => fail_artifacts_ok w end
      then Normal [label]
      else Throw (Failed ArtifactWrite)
  end.

(** [writeSummary]: it throws when the file cannot be written. *)
Definition writeSummary (w : World) (s : Summary) : Completion Summary :=
  if summary_ok w then Normal s else Throw (Failed SummaryWrite).

(** The variables that the [try] block leaves behind. *)
Record TryState : Type := mkTry {
  try_status : Status;
  try_exitCode : option nat;
  try_pagesVisited : nat;
  try_items : list Item;
  try_validation : option ValidationResult;
  try_artifacts : list Label;
}.

(** The [try] block: the state it reaches and the exception it throws. *)
Definition try_block (cfg : Config) (w : World) : TryState * option Exn :=
  if goto_ok w then
    match crawl parseAgeToSeconds (COUNT cfg) (start_page w) (more_pages w) empty_set 1 with
    | (cs, visited, Some e) => (mkTry FAIL None visited (collected cs) None [], Some e)
    | (cs, visited, None) =>
        let got := length (collected cs) in
        if negb (got =? COUNT cfg) then
          (mkTry FAIL None visited (collected cs) None [],
           Some (Error (expected_exactly (COUNT cfg) got)))
        else
          let v := validateSortedNewestToOldest (collected cs) in
          match v with
          | NotOk f =>
              (mkTry FAIL None visited (collected cs) (Some v) [], Some (Error (message f)))
          | Ok =>
              (* status = 'PASS'; process.exitCode = 0 *)
              match ARTIFACTS cfg with
              | always =>
                  match writeArtifacts cfg w pass with
                  | Normal written =>
                      (mkTry PASS (Some 0) visited (collected cs) (Some v) written, None)
                  | Throw e =>
                      (mkTry PASS (Some 0) visited (collected cs) (Some v) [], Some e)
                  end
              | _ => (mkTry PASS (Some 0) visited (collected cs) (Some v) [], None)
              end
          end
    end
  else (mkTry FAIL None 0 [] None [], Some (Failed PageGoto)).

(** The [catch] block: [detail], [process.exitCode = 1], and the artifacts
    labelled 'fail', whose failure is swallowed by [.catch(() => {})]. *)
Definition catch_block (cfg : Config) (w : World) (st : TryState) (e : Exn)
    : Message * option nat * list Label :=
  let written :=
    match ARTIFACTS cfg with
    | on_fail | always =>
        match writeArtifacts cfg w fail with
        | Normal l => l
        | Throw _ => []
        end
    | _ => []
    end in
  (message_of e, Some 1, try_artifacts st ++ written).

(** The whole run: [try], [catch], and the summary written in [finally],
    outside any handler.  The tracing calls are left out: each of them that
    runs inside the run is followed by [.catch(() => {})]. *)
Definition run (cfg : Config) (w : World) : Outcome :=
  let '(st, thrown) := try_block cfg w in
  let '(detail, code, written) :=
    match thrown with
    | Some e => catch_block cfg w st e
    | None => ([], try_exitCode st, try_artifacts st)
    end in
  let printed :=
    match try_status st with PASS => [LogPass] | FAIL => [] end
    ++ match thrown with Some e => [ErrorFail (message_of e)] | None => [] end in
  let s := {| summary_count := COUNT cfg;
              summary_pagesVisited := try_pagesVisited st;
              summary_status := try_status st;
              summary_detail := match detail with [] => None | _ :: _ => Some detail end |} in
  {| status := try_status st;
     exitCode := code;
     detail := detail;
     console := printed;
     pagesVisited := try_pagesVisited st;
     items := try_items st;
     validationResult := try_validation st;
     artifacts := written;
     summary := match writeSummary w s with Normal s' => Some s' | Throw _ => None end;
     rejected := match writeSummary w s with Normal _ => None | Throw e => Some e end |}.

(* ===================================================================== *)
(** * The plain script                                                     *)
(* ===================================================================== *)

Module Plain.
Definition TARGET : nat := 100.

(** [parseAgeToSeconds] of the plain script: one product per unit. *)
Definition parseAgeToSeconds (text : jsstring) : option number :=
  match regex_match (trim text) with
  | None => None
  | Some (m1, m2) =>
      let n := Number m1 in
      let unit := toLowerCase m2 in
      if startsWith unit (lit "minute") then Some (n *~ 60)
      else if startsWith unit (lit "hour") then Some (n *~ 3600)
      else if startsWith unit (lit "day") then Some (n *~ 86400)
      else None
  end.

Definition parse_failed (prev curr : Item) : Message :=
  [Text "Age parse failed."; Newline;
   Text "Prev: "; Quote; Str (age prev); Quote; Text " (id="; Str (id prev); Text ")"; Newline;
   Text "Curr: "; Quote; Str (age curr); Quote; Text " (id="; Str (id curr); Text ")"].

Definition sorting_violation (i : nat) (prev curr : Item) : Message :=
  [Text "Sorting violation at position "; Int (i + 1); Text "."; Newline;
   Text "#"; Int i; Text ": "; Quote; Str (title prev); Quote;
   Text " age="; Quote; Str (age prev); Quote; Text " sec="; Num (ageSeconds prev); Newline;
   Text "#"; Int (i + 1); Text ": "; Quote; Str (title curr); Quote;
   Text " age="; Quote; Str (age curr); Quote; Text " sec="; Num (ageSeconds curr)].

Fixpoint assert_from (i : nat) (prev : Item) (rest : list Item) : Completion unit :=
  match rest with
  | [] => Normal tt
  | curr :: rest' =>
      match ageSeconds prev, ageSeconds curr with
      | Some p, Some c =>
          if JsNumber.ltb c p then Throw (Error (sorting_violation i prev curr))
          else assert_from (S i) curr rest'
      | _, _ => Throw (Error (parse_failed prev curr))
      end
  end.

(** [assertSortedNewestToOldest] of the plain script: it throws where the
    other edition returns a failure. *)
Definition assertSortedNewestToOldest (items : list Item) : Completion unit :=
  match items with
  | [] => Normal tt
  | first :: rest => assert_from 1 first rest
  end.

(** The plain script: [process.exitCode] and the message printed after
    [FAIL:], if any. *)
Definition run (w : World) : nat * option Message :=
  if goto_ok w then
    match crawl parseAgeToSeconds TARGET (start_page w) (more_pages w) empty_set 1 with
    | (_, _, Some e) => (1, Some (message_of e))
    | (cs, _, None) =>
        let got := length (collected cs) in
        if negb (got =? TARGET) then (1, Some (expected_exactly TARGET got))
        else
          match assertSortedNewestToOldest (collected cs) with
          | Throw e => (1, Some (message_of e))
          | Normal _ => (0, None)
          end
    end
  else (1, Some (message_of (Failed PageGoto))).
End Plain.

(* ===================================================================== *)
(** * The vocabulary of the properties                                    *)
(* ===================================================================== *)

(** ** Age labels *)

Inductive TimeUnit : Type := Minute | Hour | Day.

Definition unit_seconds (u : TimeUnit) : N :=
  match u with
  | Minute => 60
  | Hour => 3600
  | Day => 86400
  end.

(** The two spellings of a unit word. *)
Definition spellings (u : TimeUnit) : list jsstring :=
  match u with
  | Minute => [lit "minute"; lit "minutes"]
  | Hour => [lit "hour"; lit "hours"]
  | Day => [lit "day"; lit "days"]
  end.

(** Equal up to the case of ASCII letters. *)
Definition same_ci (a b : jsstring) : Prop :=
  map canonicalize a = map canonicalize b.

(** An integer count, one or more whitespace, a unit word, the literal
    [ago]; the unit word and [ago] are separated by one or more whitespace,
    as in every label the specification gives.  The whole string is the
    label: nothing before the count, nothing after [ago]. *)
Definition Grammar (s : jsstring) (count : N) (u : TimeUnit) : Prop :=
  exists ds w1 word w2 ago,
    s = ds ++ w1 ++ word ++ w2 ++ ago
    /\ ds <> [] /\ forallb is_digit ds = true /\ decimal ds = count
    /\ w1 <> [] /\ forallb is_space w1 = true
    /\ (exists sp, In sp (spellings u) /\ same_ci word sp)
    /\ w2 <> [] /\ forallb is_space w2 = true
    /\ same_ci ago (lit "ago").

(** [stops p s]: a scan for [p] stops at the start of [s]. *)
Definition stops (p : N -> bool) (s : jsstring) : Prop :=
  match s with
  | [] => True
  | c :: _ => p c = false
  end.

(** ** Adjacent pairs *)

(** [pair_at items i p c]: [p = items[i-1]] and [c = items[i]], the pair the
    loop compares at index [i]. *)
Definition pair_at (items : list Item) (i : nat) (p c : Item) : Prop :=
  1 <= i /\ items !! (i - 1) = Some p /\ items !! i = Some c.

Definition unparsed (p c : Item) : Prop :=
  ageSeconds p = None \/ ageSeconds c = None.

Definition out_of_order (p c : Item) : Prop :=
  exists x y, ageSeconds p = Some x /\ ageSeconds c = Some y /\ JsNumber.ltb y x = true.

(** Both ages are there and the later item is at least as old. *)
Definition passes (p c : Item) : Prop :=
  exists x y, ageSeconds p = Some x /\ ageSeconds c = Some y /\ JsNumber.le x y.

Definition all_present (items : list Item) : Prop :=
  Forall (fun it => is_Some (ageSeconds it)) items.

(** Ages never decrease from any item to any later one. *)
Definition non_decreasing (items : list Item) : Prop :=
  forall i j p c x y,
    i <= j -> items !! i = Some p -> items !! j = Some c ->
    ageSeconds p = Some x -> ageSeconds c = Some y -> JsNumber.le x y.

(** The 1-based position of [curr]: [index] counts from 0, and the message
    of a sort violation prints [i + 1]. *)
Definition position (f : Failure) : nat := index f + 1.

(** ** Collected records *)

(** The non-empty identifiers among some records. *)
Definition ids (l : list Raw.t) : gset jsstring :=
  list_to_set (filter (fun x => x <> []) (Raw.id <$> l)).

(** The two loops seen as one pass over the records of all batches,
    which stops for good when [COUNT] items are collected. *)
Fixpoint scan (parse : jsstring -> option number) (COUNT : nat)
    (stream : list Raw.t) (cs : CollectedSet) : CollectedSet :=
  match stream with
  | [] => cs
  | it :: rest =>
      if COUNT <=? length (collected cs) then cs
      else if skip it cs then scan parse COUNT rest cs
      else scan parse COUNT rest (push parse it cs)
  end.

(** What holds of [collected] and [seen] after the first [n] records of
    the stream [s] have been looked at. *)
Definition collected_from (parse : jsstring -> option number)
    (s : list Raw.t) (n : nat) (cs : CollectedSet) : Prop :=
  seen cs = ids (take n s)
  /\ length (collected cs) = size (ids (take n s))
  /\ forall i it, collected cs !! i = Some it ->
       exists k r, k < n /\ s !! k = Some r
                   /\ it = withAgeSeconds r (parse (Raw.age r))
                   /\ Raw.id r <> []
                   /\ (Raw.id r ∉ (Raw.id <$> take k s))
                   /\ i = size (ids (take k s)).

(** ** Sample inputs *)

(** Four items with ages 60, 120, 90 and 200, and three with 60, null, 90. *)
Definition item_aged (n : string) (a : option number) : Item :=
  {| id := lit n; title := lit "story"; age := lit "some time ago"; ageSeconds := a |}.

Definition ages_60_120_90_200 : list Item :=
  [item_aged "1" (Some (Finite 60)); item_aged "2" (Some (Finite 120));
   item_aged "3" (Some (Finite 90)); item_aged "4" (Some (Finite 200))].

Definition ages_60_null_90 : list Item :=
  [item_aged "1" (Some (Finite 60)); item_aged "2" None; item_aged "3" (Some (Finite 90))].

Definition ages_60_60_120 : list Item :=
  [item_aged "1" (Some (Finite 60)); item_aged "2" (Some (Finite 60));
   item_aged "3" (Some (Finite 120))].

(** Two batches: a story seen again in the same batch and in the next
    one, and a row without an identifier. *)
Definition story (n label : string) : Raw.t :=
  {| Raw.id := lit n; Raw.title := lit "story"; Raw.age := lit label |}.

Definition two_batches : list (list Raw.t) :=
  [[story "41" "1 minute ago"; story "42" "2 minutes ago"; story "41" "3 minutes ago"];
   [story "42" "4 minutes ago"; story "" "5 minutes ago"; story "43" "6 minutes ago"]].

Definition numeral (n : N) : string := NilEmpty.string_of_uint (N.to_uint n).

(** The [k]-th story of a feed in the right order: [k] minutes old. *)
Definition nth_story (k : nat) : Raw.t :=
  {| Raw.id := lit (numeral (40000000 + N.of_nat k));
     Raw.title := lit "story";
     Raw.age := lit (numeral (N.of_nat k)) ++ lit " minutes ago" |}.

Definition stories (from n : nat) : list Raw.t := map nth_story (seq from n).

(** A feed of three pages with 80 stories in all, and no More link on the
    third. *)
Definition feed_of_80 : World :=
  {| goto_ok := true;
     start_page := stories 1 30;
     more_pages := [stories 31 30; stories 61 20];
     pass_artifacts_ok := true;
     fail_artifacts_ok := true;
     summary_ok := true |}.

(** A feed of four pages of 30 stories, with a browser whose
    [page.screenshot] throws, so that no artifacts can be written. *)
Definition feed_of_120_no_screenshot : World :=
  {| goto_ok := true;
     start_page := stories 1 30;
     more_pages := [stories 31 30; stories 61 30; stories 91 30];
     pass_artifacts_ok := false;
     fail_artifacts_ok := false;
     summary_ok := true |}.

Definition defaults : Config := {| COUNT := 100; ARTIFACTS := on_fail |}.
Definition artifacts_always : Config := {| COUNT := 100; ARTIFACTS := always |}.

(* ===================================================================== *)
(** * The rest of the script                                               *)
(* ===================================================================== *)

(** ** Rows of the page *)

(** What the callback of [page.evaluate] reads of a [tr.athing] row: its
    [id] attribute, the text of the link in [span.titleline], and the text
    of [span.age] in the row that follows; each may be missing. *)
Record Row : Type := mkRow {
  attr_id : option jsstring;
  titleline_text : option jsstring;
  age_text : option jsstring;
}.

(** [x || ''] for a string or [null]/[undefined]. *)
Definition or_empty (x : option jsstring) : jsstring :=
  match x with
  | Some s => s
  | None => []
  end.

(** The callback of [rows.map]: [{ id, title, age }] of a row. *)
Definition rowRecord (row : Row) : Raw.t :=
  {| Raw.id := or_empty (attr_id row);
     Raw.title := or_empty (option_map trim (titleline_text row));
     Raw.age := or_empty (option_map trim (age_text row)) |}.

(** [Array.from(document.querySelectorAll('tr.athing')).map(...)] *)
Definition evaluateRows (rows : list Row) : list Raw.t := map rowRecord rows.

(** ** The time stamp of the artifacts *)

(** The fields of the [Date] that [nowStamp] reads, in local time;
    [month] is [getMonth()], which counts from 0. *)
Record LocalTime : Type := mkTime {
  fullYear : N;
  month : N;
  date : N;
  hours : N;
  minutes : N;
  seconds : N;
}.

(** [String(n)] for a non-negative integer below 10^21: its decimal
    digits. *)
Definition ToString (n : N) : jsstring := lit (numeral n).

(** [s.padStart(2, '0')] *)
Definition padStart2 (s : jsstring) : jsstring :=
  replicate (2 - length s) 48%N ++ s.

(** [pad] of [nowStamp] *)
Definition pad (n : N) : jsstring := padStart2 (ToString n).

(** [nowStamp], as a function of the time it reads. *)
Definition nowStamp (d : LocalTime) : jsstring :=
  ToString (fullYear d) ++ lit "-" ++ pad (month d + 1) ++ lit "-" ++ pad (date d)
  ++ lit "_" ++ pad (hours d) ++ lit "-" ++ pad (minutes d) ++ lit "-" ++ pad (seconds d).

(** A time of the calendar and the clock, with a year of four digits. *)
Definition on_the_clock (d : LocalTime) : Prop :=
  (1000 <= fullYear d < 10000 /\ month d < 12 /\ 1 <= date d <= 31
   /\ hours d < 24 /\ minutes d < 60 /\ seconds d < 60)%N.

(** The fields from the year down to the second, for comparing times. *)
Definition time_fields (d : LocalTime) : list N :=
  [fullYear d; month d; date d; hours d; minutes d; seconds d].

(** [a < b] for strings in JavaScript: the order of the code units at the
    first difference, a proper prefix coming first. *)
Fixpoint string_ltb (a b : jsstring) : bool :=
  match a, b with
  | _, [] => false
  | [], _ :: _ => true
  | x :: a', y :: b' => (x <? y)%N || ((x =? y)%N && string_ltb a' b')
  end.

(** The same order on lists of numbers of one length. *)
Fixpoint fields_ltb (a b : list N) : bool :=
  match a, b with
  | x :: a', y :: b' => (x <? y)%N || ((x =? y)%N && fields_ltb a' b')
  | _, _ => false
  end.

(** ** The failure context of the roadmap *)

(** [failureContext(items, idx, window)]: the items around index [idx],
    each with its 1-based position [at]. [Math.max(0, idx - window)] is the
    subtraction of natural numbers, and [items.slice(start, end)] is empty
    when [end] is not after [start]. *)
Definition slice {A} (start stop : nat) (l : list A) : list A :=
  take (stop - start) (drop start l).

Definition failureContext (items : list Item) (idx window : nat) : list (nat * Item) :=
  let start := idx - window in
  let stop := Nat.min (length items) (idx + window + 1) in
  imap (fun i x => (start + i + 1, x)) (slice start stop items).

(** ** The two editions side by side *)

(** The message the plain script throws where the other edition returns
    the failure [f]. *)
Definition plain_message (f : Failure) : Message :=
  match kind f with
  | PARSE_ERROR => Plain.parse_failed (prev f) (curr f)
  | SORT_VIOLATION => Plain.sorting_violation (index f) (prev f) (curr f)
  end.

(** ** More sample inputs *)

Definition feed_of_120 : World :=
  {| goto_ok := true;
     start_page := stories 1 30;
     more_pages := [stories 31 30; stories 61 30; stories 91 30];
     pass_artifacts_ok := true;
     fail_artifacts_ok := true;
     summary_ok := true |}.

(** Three stories, the second younger than the first, and a target of
    three. *)
Definition count_of_3 : Config := {| COUNT := 3; ARTIFACTS := on_fail |}.

Definition feed_out_of_order : World :=
  {| goto_ok := true;
     start_page := [story "71" "3 minutes ago"; story "72" "1 minute ago";
                    story "73" "5 minutes ago"];
     more_pages := [];
     pass_artifacts_ok := true;
     fail_artifacts_ok := true;
     summary_ok := true |}.

(* ===================================================================== *)
(** * Facts about numbers and code units                                   *)
(* ===================================================================== *)

Section NumberFacts.
Local Open Scope N_scope.

Lemma round_exact z : z <= MAX_EXACT -> JsNumber.round z = Finite z.
Proof.
  intros H. destruct (N.eq_dec z MAX_EXACT) as [-> | Hne].
  - vm_compute. reflexivity.
  - unfold JsNumber.round. fold MAX_EXACT.
    destruct (N.ltb_spec z MAX_EXACT) as [_ | Hge]; [reflexivity | lia].
Qed.

Lemma mul_exact n k :
  n * Npos k <= MAX_EXACT -> Finite n *~ k = Finite (n * Npos k).
Proof. intros H. simpl. apply round_exact, H. Qed.

End NumberFacts.

Section CodeUnitFacts.
Local Open Scope N_scope.

Ltac by_ranges :=
  unfold canonicalize, lower in *; unfold is_digit, is_upper, is_lower in *;
  repeat match goal with
         | |- context [?a <=? ?b] => destruct (N.leb_spec a b)
         | H : context [?a <=? ?b] |- _ => destruct (N.leb_spec a b)
         end;
  simpl in *; try reflexivity; try discriminate; try lia.

Lemma is_digit_range c : is_digit c = true -> 48 <= c <= 57.
Proof. intros H. by_ranges. Qed.

(** No code unit from [!] to U+009F is white space. *)
Lemma not_space_range c : 33 <= c <= 159 -> is_space c = false.
Proof.
  intros H. unfold is_space.
  repeat match goal with
         | |- context [?a <=? ?b] =>
             first [ rewrite (proj2 (N.leb_le a b)) by lia
                   | rewrite (proj2 (N.leb_gt a b)) by lia ]
         | |- context [?a =? ?b] => rewrite (proj2 (N.eqb_neq a b)) by lia
         end.
  reflexivity.
Qed.

Lemma digit_not_space c : is_digit c = true -> is_space c = false.
Proof. intros H. apply is_digit_range in H. apply not_space_range. lia. Qed.

Lemma space_not_digit c : is_space c = true -> is_digit c = false.
Proof.
  intros H. destruct (is_digit c) eqn:E; [| reflexivity].
  apply digit_not_space in E. congruence.
Qed.

(** A code unit whose canonical form is an upper-case ASCII letter is
    that letter in one of its two cases. *)
Lemma canonical_letter c k :
  canonicalize c = k -> 65 <= k <= 90 -> c = k \/ c = k + 32.
Proof. intros H Hk. by_ranges. Qed.

Lemma letter_not_space c k :
  canonicalize c = k -> 65 <= k <= 90 -> is_space c = false.
Proof.
  intros H Hk. apply not_space_range.
  destruct (canonical_letter c k H Hk) as [-> | ->]; lia.
Qed.

(** [toLowerCase] undoes the case folding on a lower-case pattern letter. *)
Lemma lower_of_canonical c a :
  is_lower a = true -> canonicalize c = canonicalize a -> lower c = a.
Proof. intros Ha H. by_ranges. Qed.
End CodeUnitFacts.

(* ===================================================================== *)
(** * The matcher against the grammar                                      *)
(* ===================================================================== *)

Section Scanning.
Variable p : N -> bool.

Lemma takeWhile_dropWhile s : takeWhile p s ++ dropWhile p s = s.
Proof.
  induction s as [| c s IH]; simpl; [reflexivity |].
  destruct (p c); simpl; [f_equal; exact IH | reflexivity].
Qed.

Lemma takeWhile_all s : forallb p (takeWhile p s) = true.
Proof.
  induction s as [| c s IH]; simpl; [reflexivity |].
  destruct (p c) eqn:E; simpl; [rewrite E; exact IH | reflexivity].
Qed.

Lemma dropWhile_id s : stops p s -> dropWhile p s = s.
Proof. destruct s as [| c s]; simpl; [reflexivity | intros ->; reflexivity]. Qed.

Lemma takeWhile_app a b :
  forallb p a = true -> stops p b -> takeWhile p (a ++ b) = a.
Proof.
  induction a as [| c a IH]; simpl; intros Ha Hb.
  - destruct b as [| d b]; simpl in *; [reflexivity | rewrite Hb; reflexivity].
  - apply andb_true_iff in Ha as [Hc Ha]. rewrite Hc, IH; auto.
Qed.

Lemma dropWhile_app a b :
  forallb p a = true -> stops p b -> dropWhile p (a ++ b) = b.
Proof.
  induction a as [| c a IH]; simpl; intros Ha Hb.
  - apply dropWhile_id, Hb.
  - apply andb_true_iff in Ha as [Hc Ha]. rewrite Hc. auto.
Qed.
End Scanning.

Lemma same_ci_length a b : same_ci a b -> length a = length b.
Proof. unfold same_ci. intros H. apply (f_equal length) in H. by rewrite !length_map in H. Qed.

Lemma match_word_sound w : forall s u r,
  match_word w s = Some (u, r) -> s = u ++ r /\ same_ci u w.
Proof.
  induction w as [| a w IH]; intros s u r H; simpl in H.
  - destruct s; inversion H; subst; split; reflexivity.
  - destruct s as [| c s]; [discriminate |].
    destruct (N.eqb_spec (canonicalize c) (canonicalize a)) as [E |]; [| discriminate].
    destruct (match_word w s) as [[u' r'] |] eqn:M; [| discriminate].
    inversion H; subst. destruct (IH _ _ _ M) as [-> Hci].
    split; [reflexivity |]. unfold same_ci in *. simpl. congruence.
Qed.

Lemma match_word_complete w : forall u r,
  same_ci u w -> match_word w (u ++ r) = Some (u, r).
Proof.
  induction w as [| a w IH]; intros u r H.
  - apply same_ci_length in H. destruct u; [reflexivity | discriminate].
  - destruct u as [| c u]; [apply same_ci_length in H; discriminate |].
    unfold same_ci in H. simpl in H. inversion H as [[Hc Hu]].
    simpl. rewrite Hc, N.eqb_refl, (IH u r Hu). reflexivity.
Qed.

(** A word that is [ago] up to case starts and ends with a letter. *)
Lemma ago_letters ago :
  same_ci ago (lit "ago") ->
  exists a g o, ago = [a; g; o] /\ is_space a = false /\ is_space o = false.
Proof.
  intros H. unfold same_ci in H.
  destruct ago as [| a [| g [| o [| ? ?]]]]; try discriminate.
  inversion H as [[Ha Hg Ho]]. exists a, g, o. split; [reflexivity |].
  split; eapply letter_not_space; eauto; vm_compute; split; discriminate.
Qed.

Lemma match_tail_sound r :
  match_tail r = true ->
  exists w2 ago, r = w2 ++ ago /\ w2 <> [] /\ forallb is_space w2 = true
                 /\ same_ci ago (lit "ago").
Proof.
  unfold match_tail. intros H.
  destruct (takeWhile is_space r) as [| c w] eqn:T; [discriminate |].
  destruct (match_word (lit "ago") (dropWhile is_space r)) as [[u [| ? ?]] |] eqn:M;
    try discriminate.
  apply match_word_sound in M as [D Hci]. rewrite app_nil_r in D.
  exists (c :: w), u. split; [| split; [| split]].
  - rewrite <- T, <- D. symmetry. apply takeWhile_dropWhile.
  - discriminate.
  - rewrite <- T. apply takeWhile_all.
  - exact Hci.
Qed.

Lemma match_tail_complete w2 ago :
  w2 <> [] -> forallb is_space w2 = true -> same_ci ago (lit "ago") ->
  match_tail (w2 ++ ago) = true.
Proof.
  intros Hne Hsp Hci. unfold match_tail.
  assert (Hstop : stops is_space ago).
  { destruct (ago_letters ago Hci) as (a & g & o & -> & Ha & _). exact Ha. }
  rewrite takeWhile_app, dropWhile_app by assumption.
  destruct w2 as [| c w2]; [congruence |].
  rewrite <- (app_nil_r ago) at 1. rewrite (match_word_complete _ _ _ Hci). reflexivity.
Qed.

Lemma match_tail_letter c r : is_space c = false -> match_tail (c :: r) = false.
Proof. intros H. unfold match_tail. simpl. rewrite H. reflexivity. Qed.

Lemma match_unit_sound alts : forall s u,
  match_unit alts s = Some u ->
  exists w r, In w alts /\ match_word w s = Some (u, r) /\ match_tail r = true.
Proof.
  induction alts as [| w alts IH]; intros s u H; simpl in H; [discriminate |].
  destruct (match_word w s) as [[u' r'] |] eqn:M.
  - destruct (match_tail r') eqn:T.
    + inversion H; subst. exists w, r'. simpl. auto.
    + destruct (IH _ _ H) as (w' & r & Hin & Hm & Ht). exists w', r. simpl. auto.
  - destruct (IH _ _ H) as (w' & r & Hin & Hm & Ht). exists w', r. simpl. auto.
Qed.

Lemma unit_words_spellings w :
  In w unit_words <-> exists u, In w (spellings u).
Proof.
  split.
  - simpl. intros [<- | [<- | [<- | [<- | [<- | [<- | []]]]]]];
      [exists Minute | exists Minute | exists Hour | exists Hour | exists Day | exists Day];
      simpl; auto.
  - intros [[| |] H]; simpl in *; intuition.
Qed.

Lemma spelling_lower u w : In w (spellings u) -> forallb is_lower w = true.
Proof. destruct u; simpl; intros [<- | [<- | []]]; reflexivity. Qed.

Lemma toLowerCase_same_ci m w :
  forallb is_lower w = true -> same_ci m w -> toLowerCase m = w.
Proof.
  revert m. induction w as [| a w IH]; intros m Hw H.
  - apply same_ci_length in H. destruct m; [reflexivity | discriminate].
  - destruct m as [| c m]; [apply same_ci_length in H; discriminate |].
    unfold same_ci in H. simpl in *. inversion H as [[Hc Hm]].
    apply andb_true_iff in Hw as [Ha Hw].
    f_equal; [apply lower_of_canonical; assumption | apply IH; assumption].
Qed.

Lemma same_ci_nil_inv m : same_ci m [] -> m = [].
Proof. intros H. apply same_ci_length in H. destruct m; [reflexivity | discriminate]. Qed.

Lemma same_ci_cons_inv m a w :
  same_ci m (a :: w) ->
  exists c m', m = c :: m' /\ canonicalize c = canonicalize a /\ same_ci m' w.
Proof.
  destruct m as [| c m]; intros H; [apply same_ci_length in H; discriminate |].
  unfold same_ci in H. simpl in H. inversion H. exists c, m. auto.
Qed.

Ltac spell H :=
  match type of H with
  | same_ci ?m (lit ?s) =>
      let v := eval vm_compute in (lit s) in
      change (same_ci m v) in H; spell H
  | same_ci ?m [] => apply same_ci_nil_inv in H; subst m
  | same_ci ?m (_ :: _) =>
      let c := fresh "c" in
      let m' := fresh "m" in
      let Hc := fresh "Hc" in
      apply same_ci_cons_inv in H as (c & m' & -> & Hc & H); spell H
  end.

Lemma match_unit_complete u sp word w2 ago :
  In sp (spellings u) -> same_ci word sp ->
  w2 <> [] -> forallb is_space w2 = true -> same_ci ago (lit "ago") ->
  match_unit unit_words (word ++ w2 ++ ago) = Some word.
Proof.
  intros Hin Hci Hne Hsp Hago.
  pose proof (match_tail_complete w2 ago Hne Hsp Hago) as Htail.
  generalize dependent (w2 ++ ago). intros rest Htail. clear Hne Hsp Hago.
  destruct u; cbn [spellings In] in Hin; destruct Hin as [<- | [<- | []]]; spell Hci;
    unfold unit_words;
    repeat match goal with
           | |- context [lit ?s] =>
               let v := eval vm_compute in (lit s) in change (lit s) with v
           end;
    cbn [match_unit match_word app];
    repeat match goal with H : canonicalize _ = _ |- _ => rewrite !H end;
    repeat match goal with
           | |- context [(canonicalize ?a =? canonicalize ?b)%N] =>
               let v := eval vm_compute in (canonicalize a =? canonicalize b)%N in
               change (canonicalize a =? canonicalize b)%N with v
           end;
    cbn iota.
  all: try rewrite match_tail_letter
    by (eapply letter_not_space; [eassumption | vm_compute; split; discriminate]).
  all: rewrite Htail; reflexivity.
Qed.

Lemma spelled_head u sp word :
  In sp (spellings u) -> same_ci word sp ->
  exists c w, word = c :: w /\ is_space c = false.
Proof.
  intros Hin Hci.
  destruct u; cbn [spellings In] in Hin; destruct Hin as [<- | [<- | []]];
    match type of Hci with
    | same_ci _ (lit ?s) =>
        let v := eval vm_compute in (lit s) in change (lit s) with v in Hci
    end;
    apply same_ci_cons_inv in Hci as (c & w & -> & Hc & _);
    exists c, w; (split; [reflexivity |]);
    (eapply letter_not_space; [exact Hc | vm_compute; split; discriminate]).
Qed.

Lemma unit_branch {A} u sp (a b c d : A) :
  In sp (spellings u) ->
  (if startsWith sp (lit "minute") then a
   else if startsWith sp (lit "hour") then b
   else if startsWith sp (lit "day") then c
   else d)
  = match u with Minute => a | Hour => b | Day => c end.
Proof. destruct u; cbn [spellings In]; intros [<- | [<- | []]]; reflexivity. Qed.

(** The matcher accepts exactly the labels of the grammar, and captures
    the count's digits and the unit word. *)
Lemma regex_match_complete s count u :
  Grammar s count u ->
  exists m1 m2 sp,
    regex_match s = Some (m1, m2) /\ decimal m1 = count
    /\ In sp (spellings u) /\ same_ci m2 sp.
Proof.
  intros (ds & w1 & word & w2 & ago & -> & Hds & Hdig & Hcount & Hw1 & Hsp1
          & (sp & Hin & Hci) & Hw2 & Hsp2 & Hago).
  exists ds, word, sp. repeat split; try assumption.
  unfold regex_match.
  assert (Hstop1 : stops is_digit (w1 ++ word ++ w2 ++ ago)).
  { destruct w1 as [| c w1]; [congruence |]. simpl in *.
    apply andb_true_iff in Hsp1 as [Hc _]. apply space_not_digit, Hc. }
  assert (Hstop2 : stops is_space (word ++ w2 ++ ago)).
  { destruct (spelled_head u sp word Hin Hci) as (c & w & -> & Hc). exact Hc. }
  rewrite takeWhile_app, dropWhile_app by assumption.
  destruct ds as [| d ds]; [congruence |].
  rewrite takeWhile_app, dropWhile_app by assumption.
  destruct w1 as [| c w1]; [congruence |].
  rewrite (match_unit_complete u sp) by assumption. reflexivity.
Qed.

Lemma regex_match_sound s m1 m2 :
  regex_match s = Some (m1, m2) ->
  exists u sp, Grammar s (decimal m1) u /\ In sp (spellings u) /\ same_ci m2 sp.
Proof.
  unfold regex_match. intros H.
  destruct (takeWhile is_digit s) as [| d ds] eqn:T1; [discriminate |].
  destruct (takeWhile is_space (dropWhile is_digit s)) as [| c w1] eqn:T2; [discriminate |].
  destruct (match_unit unit_words _) as [m |] eqn:M; [| discriminate].
  inversion H; subst m1 m2; clear H.
  apply match_unit_sound in M as (w & r & Hin & Hword & Htail).
  apply unit_words_spellings in Hin as [u Hin].
  apply match_word_sound in Hword as [D2 Hci].
  apply match_tail_sound in Htail as (w2 & ago & -> & Hw2 & Hsp2 & Hago).
  exists u, w. split; [| split; assumption].
  exists (d :: ds), (c :: w1), m, w2, ago.
  split; [| repeat split; try assumption; try discriminate].
  - rewrite <- D2, <- T2, takeWhile_dropWhile, <- T1, takeWhile_dropWhile. reflexivity.
  - rewrite <- T1. apply takeWhile_all.
  - rewrite <- T2. apply takeWhile_all.
  - exists w. split; assumption.
Qed.

Lemma Grammar_head s count u :
  Grammar s count u -> exists d r, s = d :: r /\ is_digit d = true.
Proof.
  intros (ds & w1 & word & w2 & ago & -> & Hds & Hdig & _).
  destruct ds as [| d ds]; [congruence |]. simpl in Hdig.
  apply andb_true_iff in Hdig as [Hd _]. exists d, (ds ++ w1 ++ word ++ w2 ++ ago).
  split; [reflexivity | exact Hd].
Qed.

(** A label of the grammar has no white space around it: [trim] leaves it
    as it is. *)
Lemma trim_Grammar s count u : Grammar s count u -> trim s = s.
Proof.
  intros G. unfold trim.
  destruct (Grammar_head s count u G) as (d & r & E & Hd).
  rewrite (dropWhile_id is_space s)
    by (rewrite E; simpl; apply digit_not_space, Hd).
  destruct G as (ds & w1 & word & w2 & ago & -> & _ & _ & _ & _ & _ & _ & _ & _ & Hago).
  destruct (ago_letters ago Hago) as (a & g & o & -> & _ & Ho).
  rewrite !app_assoc.
  change [a; g; o] with ([a; g] ++ [o]). rewrite app_assoc, (rev_app_distr _ [o]).
  simpl rev at 2. rewrite dropWhile_id by exact Ho.
  rewrite <- (rev_app_distr _ [o]). apply rev_involutive.
Qed.

Lemma not_Grammar_by_match t :
  regex_match t = None -> forall count u, ~ Grammar t count u.
Proof.
  intros H count u G.
  destruct (regex_match_complete t count u G) as (m1 & m2 & sp & E & _). congruence.
Qed.

Lemma not_Grammar_by_head c r :
  is_digit c = false -> forall count u, ~ Grammar (c :: r) count u.
Proof.
  intros H count u G. destruct (Grammar_head _ _ _ G) as (d & r' & E & Hd).
  inversion E; subst. congruence.
Qed.

(** Build the derivation of a concrete label from its five parts. *)
Ltac grammar_parts ds w1 word w2 ago :=
  let spelled sp :=
    (exists (lit sp); split; [vm_compute; tauto | vm_compute; reflexivity]) in
  exists (lit ds), (lit w1), (lit word), (lit w2), (lit ago);
  split; [vm_compute; reflexivity |];
  split; [vm_compute; discriminate |];
  split; [vm_compute; reflexivity |];
  split; [vm_compute; reflexivity |];
  split; [vm_compute; discriminate |];
  split; [vm_compute; reflexivity |];
  split; [first [ spelled "minute"%string | spelled "minutes"%string
                | spelled "hour"%string | spelled "hours"%string
                | spelled "day"%string | spelled "days"%string ] |];
  split; [vm_compute; discriminate |];
  split; vm_compute; reflexivity.

(** C4 (as amended): a label of the grammar whose count times the unit's
    seconds is at most 2^53 parses, in both editions, to exactly that
    product. *)
Theorem parse_exact_within_doubles s count u :
  Grammar s count u ->
  (count * unit_seconds u <= MAX_EXACT)%N ->
  parseAgeToSeconds s = Some (Finite (count * unit_seconds u))
  /\ Plain.parseAgeToSeconds s = Some (Finite (count * unit_seconds u)).
Proof.
  intros G Hle.
  unfold parseAgeToSeconds, Plain.parseAgeToSeconds.
  rewrite (trim_Grammar s count u G).
  destruct (regex_match_complete s count u G) as (m1 & m2 & sp & -> & Hcount & Hin & Hci).
  rewrite (toLowerCase_same_ci m2 sp (spelling_lower u sp Hin) Hci).
  rewrite !(unit_branch u sp) by exact Hin.
  unfold Number. rewrite Hcount.
  assert (Hc : (count <= MAX_EXACT)%N) by (destruct u; simpl in Hle; lia).
  rewrite (round_exact count Hc).
  destruct u; simpl unit_seconds in *;
    repeat (rewrite mul_exact by lia); split; do 2 f_equal; lia.
Qed.

Lemma parse_exact_within_doubles_examples :
  parseAgeToSeconds (lit "3 minutes ago") = Some (Finite 180)
  /\ parseAgeToSeconds (lit "1 hour ago") = Some (Finite 3600)
  /\ parseAgeToSeconds (lit "2 days ago") = Some (Finite 172800)
  /\ Plain.parseAgeToSeconds (lit "2 DAYS  Ago") = Some (Finite 172800).
Proof.
  split; [| split; [| split]].
  - apply (parse_exact_within_doubles (lit "3 minutes ago") 3 Minute).
    + grammar_parts "3"%string " "%string "minutes"%string " "%string "ago"%string.
    + vm_compute. discriminate.
  - apply (parse_exact_within_doubles (lit "1 hour ago") 1 Hour).
    + grammar_parts "1"%string " "%string "hour"%string " "%string "ago"%string.
    + vm_compute. discriminate.
  - apply (parse_exact_within_doubles (lit "2 days ago") 2 Day).
    + grammar_parts "2"%string " "%string "days"%string " "%string "ago"%string.
    + vm_compute. discriminate.
  - apply (parse_exact_within_doubles (lit "2 DAYS  Ago") 2 Day).
    + grammar_parts "2"%string " "%string "DAYS"%string "  "%string "Ago"%string.
    + vm_compute. discriminate.
Defined.

(** C4 as stated fails: 2^53 + 1 minutes is a label of the grammar, but
    [Number] rounds the count to 2^53 before the product is taken. *)
Lemma parse_inexact_beyond_doubles :
  ~ (forall s count u,
        Grammar s count u ->
        parseAgeToSeconds s = Some (Finite (count * unit_seconds u))).
Proof.
  intros H.
  specialize (H (lit "9007199254740993 minutes ago") 9007199254740993%N Minute).
  assert (G : Grammar (lit "9007199254740993 minutes ago") 9007199254740993 Minute)
    by grammar_parts "9007199254740993"%string " "%string "minutes"%string
                     " "%string "ago"%string.
  specialize (H G). vm_compute in H. discriminate H.
Qed.

(** C5 (as amended): a string that, once trimmed, is not a label of the
    grammar parses to [null] in both editions. *)
Theorem parse_outside_grammar s :
  (forall count u, ~ Grammar (trim s) count u) ->
  parseAgeToSeconds s = None /\ Plain.parseAgeToSeconds s = None.
Proof.
  intros H. unfold parseAgeToSeconds, Plain.parseAgeToSeconds.
  destruct (regex_match (trim s)) as [[m1 m2] |] eqn:M; [| split; reflexivity].
  destruct (regex_match_sound _ _ _ M) as (u & sp & G & _).
  destruct (H _ _ G).
Qed.

Lemma parse_outside_grammar_examples :
  parseAgeToSeconds (lit "") = None
  /\ parseAgeToSeconds (lit "yesterday") = None
  /\ parseAgeToSeconds (lit "5 weeks ago") = None
  /\ parseAgeToSeconds (lit "minute ago") = None.
Proof.
  split; [| split; [| split]].
  - apply (parse_outside_grammar (lit "")), not_Grammar_by_match. vm_compute. reflexivity.
  - apply (parse_outside_grammar (lit "yesterday")), not_Grammar_by_match. vm_compute. reflexivity.
  - apply (parse_outside_grammar (lit "5 weeks ago")), not_Grammar_by_match. vm_compute. reflexivity.
  - apply (parse_outside_grammar (lit "minute ago")), not_Grammar_by_match. vm_compute. reflexivity.
Defined.

(** C5 as stated fails: a label with a space in front is not of the
    grammar, which starts with the count, yet it parses. *)
Lemma padded_label_parses :
  ~ (forall s, (forall count u, ~ Grammar s count u) -> parseAgeToSeconds s = None).
Proof.
  intros H. specialize (H (lit " 3 minutes ago")).
  assert (E : parseAgeToSeconds (lit " 3 minutes ago") = Some (Finite 180))
    by (vm_compute; reflexivity).
  rewrite H in E; [discriminate E |].
  apply not_Grammar_by_head. reflexivity.
Qed.

(* ===================================================================== *)
(** * The validator reports the first failing pair                         *)
(* ===================================================================== *)

Lemma passes_or_fails p c : passes p c \/ unparsed p c \/ out_of_order p c.
Proof.
  unfold passes, unparsed, out_of_order, JsNumber.le.
  destruct (ageSeconds p) as [x |] eqn:Ep, (ageSeconds c) as [y |] eqn:Ec; auto.
  destruct (JsNumber.ltb y x) eqn:E; [right; right | left]; eauto.
Qed.

Lemma present_not_out_of_order_passes p c :
  is_Some (ageSeconds p) -> is_Some (ageSeconds c) -> ~ out_of_order p c -> passes p c.
Proof.
  intros [x Hx] [y Hy] H. destruct (passes_or_fails p c) as [? | [[E | E] | ?]];
    try assumption; try congruence; contradiction.
Qed.

(** One step of the loop on a pair that passes. *)
Lemma validate_from_step k p c rest :
  passes p c -> validate_from k p (c :: rest) = validate_from (S k) c rest.
Proof.
  intros (x & y & Hx & Hy & Hle). simpl. rewrite Hx, Hy.
  unfold JsNumber.le in Hle. rewrite Hle. reflexivity.
Qed.

Lemma assert_from_step k p c rest :
  passes p c -> Plain.assert_from k p (c :: rest) = Plain.assert_from (S k) c rest.
Proof.
  intros (x & y & Hx & Hy & Hle). simpl. rewrite Hx, Hy.
  unfold JsNumber.le in Hle. rewrite Hle. reflexivity.
Qed.

Lemma validate_from_unparsed k p c rest :
  unparsed p c -> validate_from k p (c :: rest) = NotOk (parse_error k p c).
Proof.
  intros [H | H]; simpl; rewrite H; [reflexivity |].
  destruct (ageSeconds p); reflexivity.
Qed.

Lemma assert_from_unparsed k p c rest :
  unparsed p c ->
  Plain.assert_from k p (c :: rest) = Throw (Error (Plain.parse_failed p c)).
Proof.
  intros [H | H]; simpl; rewrite H; [reflexivity |].
  destruct (ageSeconds p); reflexivity.
Qed.

Lemma validate_from_out_of_order k p c rest :
  out_of_order p c -> validate_from k p (c :: rest) = NotOk (sort_violation k p c).
Proof. intros (x & y & Hx & Hy & Hlt). simpl. rewrite Hx, Hy, Hlt. reflexivity. Qed.

Lemma assert_from_out_of_order k p c rest :
  out_of_order p c ->
  Plain.assert_from k p (c :: rest) = Throw (Error (Plain.sorting_violation k p c)).
Proof. intros (x & y & Hx & Hy & Hlt). simpl. rewrite Hx, Hy, Hlt. reflexivity. Qed.

(** The loop started at index [k] on [first :: rest] behaves, up to the
    pair at offset [j], like the loop started at that pair. *)
Lemma validate_from_skip j : forall k first rest p,
  (first :: rest) !! j = Some p ->
  (forall j' p' c', j' < j -> (first :: rest) !! j' = Some p' ->
                    (first :: rest) !! S j' = Some c' -> passes p' c') ->
  validate_from k first rest = validate_from (k + j) p (drop j rest)
  /\ Plain.assert_from k first rest = Plain.assert_from (k + j) p (drop j rest).
Proof.
  induction j as [| j IH]; intros k first rest p Hp Hpass.
  - simpl in Hp. inversion Hp; subst. rewrite Nat.add_0_r, drop_0. split; reflexivity.
  - destruct rest as [| c rest]; [discriminate |].
    assert (Hfirst : passes first c) by (apply (Hpass 0); [lia | reflexivity | reflexivity]).
    rewrite (validate_from_step _ _ _ _ Hfirst), (assert_from_step _ _ _ _ Hfirst).
    replace (k + S j) with (S k + j) by lia. simpl drop.
    apply IH; [exact Hp |].
    intros j' p' c' Hj' Hp' Hc'. apply (Hpass (S j')); [lia | exact Hp' | exact Hc'].
Qed.

(** The pair compared at index [i], once every earlier pair has passed. *)
Lemma validate_reaches items i p c :
  pair_at items i p c ->
  (forall j p' c', j < i -> pair_at items j p' c' -> passes p' c') ->
  exists rest,
    validateSortedNewestToOldest items = validate_from i p (c :: rest)
    /\ Plain.assertSortedNewestToOldest items = Plain.assert_from i p (c :: rest).
Proof.
  intros (Hi & Hp & Hc) Hpass.
  destruct items as [| first rest]; [discriminate |].
  destruct i as [| j]; [lia |]. simpl in Hp. rewrite Nat.sub_0_r in Hp.
  destruct (validate_from_skip j 1 first rest p Hp) as [E1 E2].
  { intros j' p' c' Hj' Hp' Hc'. apply (Hpass (S j')); [lia |].
    split; [lia |]. simpl. rewrite Nat.sub_0_r. split; assumption. }
  simpl in Hc. exists (drop (S j) rest).
  assert (D : drop j rest = c :: drop (S j) rest)
    by (apply drop_S, Hc).
  unfold validateSortedNewestToOldest, Plain.assertSortedNewestToOldest.
  rewrite E1, E2, D. split; reflexivity.
Qed.

Lemma validate_from_ok rest : forall k first,
  validate_from k first rest = Ok <->
  (forall j p c, (first :: rest) !! j = Some p -> (first :: rest) !! S j = Some c ->
                 passes p c).
Proof.
  induction rest as [| c rest IH]; intros k first.
  - split; [| reflexivity]. intros _ j p x _ Hx. destruct j; discriminate.
  - split.
    + intros H j p x Hp Hx.
      destruct (passes_or_fails first c) as [Hpass | [Hun | Hoo]].
      * rewrite (validate_from_step _ _ _ _ Hpass) in H.
        destruct j as [| j]; [simpl in *; congruence |].
        apply (proj1 (IH (S k) c) H j); assumption.
      * rewrite (validate_from_unparsed _ _ _ _ Hun) in H. discriminate.
      * rewrite (validate_from_out_of_order _ _ _ _ Hoo) in H. discriminate.
    + intros H. rewrite validate_from_step by (apply (H 0); reflexivity).
      apply IH. intros j p x Hp Hx. apply (H (S j)); assumption.
Qed.

Lemma validate_ok_iff items :
  validateSortedNewestToOldest items = Ok <->
  (forall i p c, pair_at items i p c -> passes p c).
Proof.
  destruct items as [| first rest].
  - split; [| reflexivity]. intros _ i p c (_ & _ & H). discriminate.
  - unfold validateSortedNewestToOldest. rewrite validate_from_ok. split.
    + intros H i p c (Hi & Hp & Hc). destruct i as [| j]; [lia |].
      simpl in Hp. rewrite Nat.sub_0_r in Hp. apply (H j); assumption.
    + intros H j p c Hp Hc. apply (H (S j)). split; [lia |].
      simpl. rewrite Nat.sub_0_r. split; assumption.
Qed.

(** The two editions agree on whether the list is accepted. *)
Lemma assert_from_validate_from rest : forall k first,
  Plain.assert_from k first rest = Normal tt <-> validate_from k first rest = Ok.
Proof.
  induction rest as [| c rest IH]; intros k first; simpl; [tauto |].
  destruct (ageSeconds first), (ageSeconds c); try (split; discriminate).
  destruct (JsNumber.ltb _ _); [split; discriminate | apply IH].
Qed.

Lemma assert_validate items :
  Plain.assertSortedNewestToOldest items = Normal tt <->
  validateSortedNewestToOldest items = Ok.
Proof. destruct items; [tauto | apply assert_from_validate_from]. Qed.

(** C1: when every age is present and the pair at index [i] is the first
    one out of order, the validator returns exactly one failure, written out
    here field by field: its kind is [SORT_VIOLATION], its [index] is [i],
    the index of the later item, [prev] and [curr] are the earlier and the
    later item of that pair, and the message prints the 1-based position
    [i + 1] of the later item, then the title, age text, seconds and id of
    each of the two.  The plain script throws at the same pair, with the
    same position in its message and the two items under [#i] and [#i+1]. *)
Theorem first_sort_violation_reported items i p c :
  all_present items ->
  pair_at items i p c ->
  out_of_order p c ->
  (forall j p' c', j < i -> pair_at items j p' c' -> ~ out_of_order p' c') ->
  validateSortedNewestToOldest items = NotOk (sort_violation i p c)
  /\ position (sort_violation i p c) = i + 1
  /\ Plain.assertSortedNewestToOldest items
     = Throw (Error (Plain.sorting_violation i p c))
  /\ (exists f,
        validateSortedNewestToOldest items = NotOk f
        /\ kind f = SORT_VIOLATION
        /\ index f = i
        /\ prev f = p
        /\ curr f = c
        /\ items !! (index f - 1) = Some (prev f)
        /\ items !! index f = Some (curr f)
        /\ (exists older newer,
              ageSeconds (prev f) = Some older /\ ageSeconds (curr f) = Some newer
              /\ JsNumber.ltb newer older = true)
        /\ message f =
             [Text "Sorting violation at position "; Int (i + 1); Text "."; Newline;
              Text "prev: "; Quote; Str (title p); Quote; Text " | "; Str (age p);
              Text " ("; Num (ageSeconds p); Text "s) | id="; Str (id p); Newline;
              Text "curr: "; Quote; Str (title c); Quote; Text " | "; Str (age c);
              Text " ("; Num (ageSeconds c); Text "s) | id="; Str (id c)])
  /\ Plain.assertSortedNewestToOldest items
     = Throw (Error
         [Text "Sorting violation at position "; Int (i + 1); Text "."; Newline;
          Text "#"; Int i; Text ": "; Quote; Str (title p); Quote;
          Text " age="; Quote; Str (age p); Quote; Text " sec="; Num (ageSeconds p); Newline;
          Text "#"; Int (i + 1); Text ": "; Quote; Str (title c); Quote;
          Text " age="; Quote; Str (age c); Quote; Text " sec="; Num (ageSeconds c)]).
Proof.
  intros Hall Hpair Hoo Hfirst.
  destruct (validate_reaches items i p c Hpair) as (rest & E1 & E2).
  { intros j p' c' Hj Hp'. pose proof Hp' as (_ & Hp & Hc).
    apply present_not_out_of_order_passes; [| | exact (Hfirst j p' c' Hj Hp')].
    - exact (proj1 (Forall_lookup _ _) Hall _ _ Hp).
    - exact (proj1 (Forall_lookup _ _) Hall _ _ Hc). }
  rewrite E1, E2, validate_from_out_of_order, assert_from_out_of_order by assumption.
  destruct Hpair as (Hi & Hp & Hc).
  split; [reflexivity |]. split; [reflexivity |]. split; [reflexivity |].
  split; [| reflexivity].
  exists (sort_violation i p c).
  split; [reflexivity |]. split; [reflexivity |]. split; [reflexivity |].
  split; [reflexivity |]. split; [reflexivity |].
  split; [exact Hp |]. split; [exact Hc |]. split; [exact Hoo | reflexivity].
Qed.

(** The list of ages 60, 120, 90, 200: the failure is a [SORT_VIOLATION] at
    index 2, printed as position 3, between the item aged 120 and the item
    aged 90; the later pair (90, 200) is not reported. *)
Lemma first_sort_violation_example :
  exists f m,
    validateSortedNewestToOldest ages_60_120_90_200 = NotOk f
    /\ kind f = SORT_VIOLATION
    /\ index f = 2
    /\ position f = 3
    /\ prev f = item_aged "2" (Some (Finite 120))
    /\ curr f = item_aged "3" (Some (Finite 90))
    /\ take 3 (message f) = [Text "Sorting violation at position "; Int 3; Text "."]
    /\ Plain.assertSortedNewestToOldest ages_60_120_90_200 = Throw (Error m)
    /\ take 3 m = [Text "Sorting violation at position "; Int 3; Text "."].
Proof.
  destruct (first_sort_violation_reported ages_60_120_90_200 2
              (item_aged "2" (Some (Finite 120))) (item_aged "3" (Some (Finite 90))))
    as (_ & _ & _ & (f & E & K & I & P & C & _ & _ & _ & M) & T).
  - repeat constructor; eexists; reflexivity.
  - split; [lia | split; reflexivity].
  - exists (Finite 120), (Finite 90). repeat split.
  - intros j p' c' Hj (Hj1 & Hp & Hc) (x & y & Hx & Hy & Hlt).
    assert (j = 1) as -> by lia. simpl in Hp, Hc.
    inversion Hp; subst p'. inversion Hc; subst c'. simpl in Hx, Hy.
    inversion Hx; subst x. inversion Hy; subst y. discriminate Hlt.
  - eexists f, _. unfold position. rewrite M, I.
    split; [exact E |]. split; [exact K |]. split; [reflexivity |].
    split; [reflexivity |]. split; [exact P |]. split; [exact C |].
    split; [reflexivity |]. split; [exact T | reflexivity].
Defined.

(** C2: at the first pair with a missing age, all earlier pairs having
    passed, the validator returns exactly one failure, written out here
    field by field: its kind is [PARSE_ERROR], never [SORT_VIOLATION], its
    [index] is [i], [prev] and [curr] are the two items of that pair, and
    the message names the age text and the id of each, whatever the other
    age is.  The plain script throws its [Age parse failed.] at the same
    pair. *)
Theorem parse_error_takes_precedence items i p c :
  pair_at items i p c ->
  unparsed p c ->
  (forall j p' c', j < i -> pair_at items j p' c' -> passes p' c') ->
  validateSortedNewestToOldest items = NotOk (parse_error i p c)
  /\ position (parse_error i p c) = i + 1
  /\ Plain.assertSortedNewestToOldest items = Throw (Error (Plain.parse_failed p c))
  /\ (exists f,
        validateSortedNewestToOldest items = NotOk f
        /\ kind f = PARSE_ERROR
        /\ kind f <> SORT_VIOLATION
        /\ index f = i
        /\ prev f = p
        /\ curr f = c
        /\ items !! (index f - 1) = Some (prev f)
        /\ items !! index f = Some (curr f)
        /\ (ageSeconds (prev f) = None \/ ageSeconds (curr f) = None)
        /\ message f =
             [Text "Could not parse age string(s)."; Newline;
              Text "prev: "; Quote; Str (age p); Quote;
              Text " (id="; Str (id p); Text ")"; Newline;
              Text "curr: "; Quote; Str (age c); Quote;
              Text " (id="; Str (id c); Text ")"])
  /\ Plain.assertSortedNewestToOldest items
     = Throw (Error
         [Text "Age parse failed."; Newline;
          Text "Prev: "; Quote; Str (age p); Quote;
          Text " (id="; Str (id p); Text ")"; Newline;
          Text "Curr: "; Quote; Str (age c); Quote;
          Text " (id="; Str (id c); Text ")"]).
Proof.
  intros Hpair Hun Hpass.
  destruct (validate_reaches items i p c Hpair Hpass) as (rest & E1 & E2).
  rewrite E1, E2, validate_from_unparsed, assert_from_unparsed by assumption.
  destruct Hpair as (Hi & Hp & Hc).
  split; [reflexivity |]. split; [reflexivity |]. split; [reflexivity |].
  split; [| reflexivity].
  exists (parse_error i p c).
  split; [reflexivity |]. split; [reflexivity |]. split; [discriminate |].
  split; [reflexivity |]. split; [reflexivity |]. split; [reflexivity |].
  split; [exact Hp |]. split; [exact Hc |]. split; [exact Hun | reflexivity].
Qed.

(** The list of ages 60, missing, 90: the failure is a [PARSE_ERROR] at
    index 1, position 2, between the item aged 60 and the item without an
    age, although 90 after it would be no violation of the order. *)
Lemma parse_error_example :
  exists f m,
    validateSortedNewestToOldest ages_60_null_90 = NotOk f
    /\ kind f = PARSE_ERROR
    /\ index f = 1
    /\ position f = 2
    /\ prev f = item_aged "1" (Some (Finite 60))
    /\ curr f = item_aged "2" None
    /\ take 1 (message f) = [Text "Could not parse age string(s)."]
    /\ Plain.assertSortedNewestToOldest ages_60_null_90 = Throw (Error m)
    /\ take 1 m = [Text "Age parse failed."].
Proof.
  destruct (parse_error_takes_precedence ages_60_null_90 1
              (item_aged "1" (Some (Finite 60))) (item_aged "2" None))
    as (_ & _ & _ & (f & E & K & _ & I & P & C & _ & _ & _ & M) & T).
  - split; [lia | split; reflexivity].
  - right. reflexivity.
  - intros j p' c' Hj (Hj1 & _). lia.
  - eexists f, _. unfold position. rewrite M, I.
    split; [exact E |]. split; [exact K |]. split; [reflexivity |].
    split; [reflexivity |]. split; [exact P |]. split; [exact C |].
    split; [reflexivity |]. split; [exact T | reflexivity].
Defined.

(** C3: a list with every age present and ages that never decrease is
    accepted, and a list is accepted only if each of its adjacent pairs
    passes. *)
Theorem ok_exactly_when_no_pair_fails items :
  (all_present items -> non_decreasing items ->
   validateSortedNewestToOldest items = Ok
   /\ Plain.assertSortedNewestToOldest items = Normal tt)
  /\ (validateSortedNewestToOldest items = Ok ->
      forall i p c, pair_at items i p c -> passes p c).
Proof.
  split.
  - intros Hall Hsorted.
    assert (H : validateSortedNewestToOldest items = Ok).
    { apply validate_ok_iff. intros i p c (Hi & Hp & Hc).
      destruct (proj1 (Forall_lookup _ _) Hall _ _ Hp) as [x Hx].
      destruct (proj1 (Forall_lookup _ _) Hall _ _ Hc) as [y Hy].
      exists x, y. repeat split; try assumption.
      apply (Hsorted (i - 1) i p c); try assumption. lia. }
    split; [exact H | apply assert_validate, H].
  - apply validate_ok_iff.
Qed.

Lemma ok_with_ties_example :
  validateSortedNewestToOldest ages_60_60_120 = Ok
  /\ Plain.assertSortedNewestToOldest ages_60_60_120 = Normal tt.
Proof.
  apply (proj1 (ok_exactly_when_no_pair_fails ages_60_60_120)).
  - repeat constructor; eexists; reflexivity.
  - intros i j p c x y Hij Hp Hc Hx Hy.
    destruct i as [| [| [| i]]], j as [| [| [| j]]]; try lia; try discriminate;
      simpl in Hp, Hc; inversion Hp; subst p; inversion Hc; subst c;
      simpl in Hx, Hy; inversion Hx; subst x; inversion Hy; subst y; reflexivity.
Defined.

(** C10: a list of at most one item is accepted, parsed or not. *)
Theorem short_list_ok items :
  length items <= 1 ->
  validateSortedNewestToOldest items = Ok
  /\ Plain.assertSortedNewestToOldest items = Normal tt.
Proof.
  destruct items as [| x [| y rest]]; simpl; intros H; [split; reflexivity .. | lia].
Qed.

Lemma single_unparsed_item_ok :
  validateSortedNewestToOldest [item_aged "1" None] = Ok
  /\ Plain.assertSortedNewestToOldest [item_aged "1" None] = Normal tt.
Proof. apply (short_list_ok [item_aged "1" None]). simpl. lia. Defined.

(* ===================================================================== *)
(** * The accumulator                                                      *)
(* ===================================================================== *)

Lemma ids_snoc l r :
  ids (l ++ [r]) = if decide (Raw.id r = []) then ids l else {[Raw.id r]} ∪ ids l.
Proof.
  unfold ids. rewrite fmap_app, filter_app, list_to_set_app_L. simpl.
  rewrite filter_cons, filter_nil.
  destruct (decide (Raw.id r = [])) as [E | NE].
  - rewrite decide_False by (intros H; apply H, E). simpl.
    apply (right_id_L ∅ (∪)).
  - rewrite decide_True by exact NE. simpl.
    rewrite (right_id_L ∅ (∪)). apply (comm_L (∪)).
Qed.

Lemma elem_of_ids x l : x ∈ ids l <-> x <> [] /\ x ∈ Raw.id <$> l.
Proof. unfold ids. rewrite elem_of_list_to_set, list_elem_of_filter. tauto. Qed.

Lemma ids_take_mono (s : list Raw.t) n m : n <= m -> ids (take n s) ⊆ ids (take m s).
Proof.
  intros H x. rewrite !elem_of_ids. intros [Hx Hin]. split; [exact Hx |].
  apply list_elem_of_fmap in Hin as (r & -> & Hr). apply list_elem_of_fmap.
  exists r. split; [reflexivity |].
  apply list_elem_of_lookup in Hr as [k Hk]. apply lookup_take_Some in Hk as [Hk Hlt].
  apply list_elem_of_lookup. exists k. apply lookup_take_Some. split; [exact Hk | lia].
Qed.

Section Accumulator.
Variable parse : jsstring -> option number.
Variable COUNT : nat.

Lemma scan_full stream cs :
  COUNT <= length (collected cs) -> scan parse COUNT stream cs = cs.
Proof.
  intros H. destruct stream as [| it rest]; [reflexivity |]. simpl.
  destruct (Nat.leb_spec COUNT (length (collected cs))); [reflexivity | lia].
Qed.

Lemma push_length it cs :
  length (collected (push parse it cs)) = S (length (collected cs)).
Proof. simpl. rewrite length_app. simpl. lia. Qed.

Lemma collectPage_scan batch : forall cs rest,
  length (collected cs) < COUNT ->
  scan parse COUNT (batch ++ rest) cs
  = scan parse COUNT rest (collectPage parse COUNT batch cs).
Proof.
  induction batch as [| it batch IH]; intros cs rest Hlt; [reflexivity |].
  cbn [app scan collectPage].
  destruct (Nat.leb_spec COUNT (length (collected cs))); [lia |].
  destruct (skip it cs); [apply IH, Hlt |].
  pose proof (push_length it cs) as Hlen.
  destruct (Nat.eqb_spec (length (collected (push parse it cs))) COUNT) as [E | NE].
  - rewrite !scan_full by lia. reflexivity.
  - apply IH. lia.
Qed.

Lemma collectPage_length batch : forall cs,
  length (collected cs) < COUNT ->
  length (collected (collectPage parse COUNT batch cs)) <= COUNT.
Proof.
  induction batch as [| it batch IH]; intros cs Hlt; cbn [collectPage]; [lia |].
  destruct (skip it cs); [apply IH, Hlt |].
  pose proof (push_length it cs) as Hlen.
  destruct (Nat.eqb_spec (length (collected (push parse it cs))) COUNT) as [E | NE].
  - lia.
  - apply IH. lia.
Qed.

Lemma accumulate_full batches cs :
  COUNT <= length (collected cs) -> accumulate parse COUNT batches cs = cs.
Proof.
  intros H. destruct batches as [| b later]; [reflexivity |]. simpl.
  destruct (Nat.ltb_spec (length (collected cs)) COUNT); [lia | reflexivity].
Qed.

Lemma accumulate_scan batches : forall cs,
  accumulate parse COUNT batches cs = scan parse COUNT (concat batches) cs.
Proof.
  induction batches as [| b later IH]; intros cs; [reflexivity |]. simpl.
  destruct (Nat.ltb_spec (length (collected cs)) COUNT) as [Hlt | Hge].
  - rewrite IH. symmetry. apply collectPage_scan, Hlt.
  - symmetry. apply scan_full, Hge.
Qed.

(** Once the batch has filled the set, what follows in it is not looked
    at. *)
Lemma collectPage_app b1 b2 : forall cs,
  length (collected cs) < COUNT ->
  length (collected (collectPage parse COUNT b1 cs)) = COUNT ->
  collectPage parse COUNT (b1 ++ b2) cs = collectPage parse COUNT b1 cs.
Proof.
  induction b1 as [| it b1 IH]; intros cs Hlt Hfull; cbn [collectPage app] in *; [lia |].
  destruct (skip it cs); [apply IH; assumption |].
  pose proof (push_length it cs) as Hlen.
  destruct (Nat.eqb_spec (length (collected (push parse it cs))) COUNT) as [E | NE];
    [reflexivity |].
  apply IH; [lia | exact Hfull].
Qed.

Lemma skip_spec it cs :
  skip it cs = true <-> Raw.id it = [] \/ Raw.id it ∈ seen cs.
Proof.
  unfold skip. destruct (Raw.id it) as [| c s] eqn:E.
  - split; auto.
  - rewrite bool_decide_eq_true. split; [auto | intros [? | ?]; [discriminate | assumption]].
Qed.

Lemma collected_from_skip s n it cs :
  s !! n = Some it -> skip it cs = true ->
  collected_from parse s n cs -> collected_from parse s (S n) cs.
Proof.
  intros Hn Hskip (Hseen & Hlen & Hitems).
  assert (E : ids (take (S n) s) = ids (take n s)).
  { rewrite (take_S_r _ _ _ Hn), ids_snoc. apply skip_spec in Hskip.
    destruct (decide (Raw.id it = [])) as [? | NE]; [reflexivity |].
    destruct Hskip as [? | Hin]; [contradiction |]. rewrite Hseen in Hin.
    apply subseteq_union_1_L. apply singleton_subseteq_l. exact Hin. }
  split; [| split].
  - rewrite E. exact Hseen.
  - rewrite E. exact Hlen.
  - intros i x Hx. destruct (Hitems i x Hx) as (k & r & Hk & Hrest).
    exists k, r. split; [lia | exact Hrest].
Qed.

Lemma collected_from_push s n it cs :
  s !! n = Some it -> skip it cs = false ->
  collected_from parse s n cs -> collected_from parse s (S n) (push parse it cs).
Proof.
  intros Hn Hskip (Hseen & Hlen & Hitems).
  assert (Hnew : Raw.id it <> [] /\ Raw.id it ∉ ids (take n s)).
  { rewrite <- Hseen. split; intros H; apply not_true_iff_false in Hskip;
      apply Hskip, skip_spec; auto. }
  destruct Hnew as [Hne Hfresh].
  assert (E : ids (take (S n) s) = {[Raw.id it]} ∪ ids (take n s)).
  { rewrite (take_S_r _ _ _ Hn), ids_snoc. rewrite decide_False by exact Hne. reflexivity. }
  split; [| split].
  - simpl. rewrite E, Hseen. reflexivity.
  - rewrite push_length, E, size_union, size_singleton
      by (apply disjoint_singleton_l, Hfresh). lia.
  - intros i x Hx. simpl in Hx. apply lookup_app_Some in Hx as [Hx | [Hi Hx]].
    + destruct (Hitems i x Hx) as (k & r & Hk & Hrest).
      exists k, r. split; [lia | exact Hrest].
    + exists n, it. apply list_lookup_singleton_Some in Hx as [Hi0 <-].
      split; [lia |]. split; [exact Hn |]. split; [reflexivity |].
      split; [exact Hne |]. split.
      * intros Hin. apply Hfresh, elem_of_ids. split; assumption.
      * lia.
Qed.

Lemma scan_collected_from s : forall todo n cs,
  n <= length s -> drop n s = todo -> collected_from parse s n cs ->
  exists n', collected_from parse s n' (scan parse COUNT todo cs)
             /\ (n' = length s
                 \/ COUNT <= length (collected (scan parse COUNT todo cs))).
Proof.
  induction todo as [| it rest IH]; intros n cs Hle Hdrop Hinv.
  - exists n. split; [exact Hinv |]. left.
    apply (f_equal length) in Hdrop. rewrite length_drop in Hdrop. simpl in Hdrop. lia.
  - assert (Hn : s !! n = Some it).
    { rewrite <- (Nat.add_0_r n), <- lookup_drop, Hdrop. reflexivity. }
    assert (Hrest : drop (S n) s = rest).
    { rewrite (drop_S _ _ _ Hn) in Hdrop. congruence. }
    apply lookup_lt_Some in Hn as Hlt.
    simpl. destruct (Nat.leb_spec COUNT (length (collected cs))) as [Hfull | Hroom].
    + exists n. split; [exact Hinv | right; exact Hfull].
    + destruct (skip it cs) eqn:Hskip.
      * apply (IH (S n)); [lia | exact Hrest |]. apply (collected_from_skip s n it); assumption.
      * apply (IH (S n)); [lia | exact Hrest |]. apply (collected_from_push s n it); assumption.
Qed.
End Accumulator.

Lemma collected_from_start parse s : collected_from parse s 0 empty_set.
Proof.
  split; [| split].
  - reflexivity.
  - reflexivity.
  - intros i it H. discriminate.
Qed.

(** The set after any batches: what one pass over their records leaves. *)
Lemma accumulate_collected_from parse COUNT batches :
  exists n,
    collected_from parse (concat batches) n (accumulate parse COUNT batches empty_set)
    /\ (n = length (concat batches)
        \/ COUNT <= length (collected (accumulate parse COUNT batches empty_set))).
Proof.
  rewrite accumulate_scan.
  apply (scan_collected_from parse COUNT (concat batches) (concat batches) 0);
    [lia | reflexivity | apply collected_from_start].
Qed.

Lemma accumulate_length parse COUNT batches : forall cs,
  length (collected cs) <= COUNT ->
  length (collected (accumulate parse COUNT batches cs)) <= COUNT.
Proof.
  induction batches as [| b later IH]; intros cs Hle; simpl; [exact Hle |].
  destruct (Nat.ltb_spec (length (collected cs)) COUNT) as [Hlt | Hge]; [| exact Hle].
  apply IH, collectPage_length, Hlt.
Qed.

(** C6: whatever the batches, no identifier is collected twice, no
    collected item has an empty identifier, and the item at position [i]
    comes from the first record with its identifier, of which [i] distinct
    non-empty identifiers occur earlier in the batches. *)
Theorem collected_once_at_first_occurrence parse COUNT batches :
  let cs := accumulate parse COUNT batches empty_set in
  let stream := concat batches in
  NoDup (id <$> collected cs)
  /\ (forall it, it ∈ collected cs -> id it <> [])
  /\ (forall i it, collected cs !! i = Some it ->
        exists k r, stream !! k = Some r
                    /\ it = withAgeSeconds r (parse (Raw.age r))
                    /\ (Raw.id r ∉ (Raw.id <$> take k stream))
                    /\ i = size (ids (take k stream))).
Proof.
  intros cs stream.
  destruct (accumulate_collected_from parse COUNT batches) as (n & (_ & _ & Hitems) & _).
  fold cs stream in Hitems.
  split; [| split].
  - apply NoDup_alt. intros i j x Hi Hj.
    rewrite list_lookup_fmap in Hi, Hj.
    destruct (collected cs !! i) as [a |] eqn:Ea; [| discriminate].
    destruct (collected cs !! j) as [b |] eqn:Eb; [| discriminate].
    simpl in Hi, Hj.
    destruct (Hitems i a Ea) as (ka & ra & _ & Hka & -> & _ & Hfa & ->).
    destruct (Hitems j b Eb) as (kb & rb & _ & Hkb & -> & _ & Hfb & ->).
    simpl in Hi, Hj. inversion Hi as [Hida]. inversion Hj as [Hidb].
    assert (ka = kb) as ->; [| reflexivity].
    destruct (Nat.lt_trichotomy ka kb) as [Hlt | [? | Hlt]]; [| assumption |]; exfalso.
    + apply Hfb. apply list_elem_of_fmap. exists ra. split; [congruence |].
      apply list_elem_of_lookup. exists ka. apply lookup_take_Some. auto.
    + apply Hfa. apply list_elem_of_fmap. exists rb. split; [congruence |].
      apply list_elem_of_lookup. exists kb. apply lookup_take_Some. auto.
  - intros it Hin. apply list_elem_of_lookup in Hin as [i Hi].
    destruct (Hitems i it Hi) as (k & r & _ & _ & -> & Hne & _). exact Hne.
  - intros i it Hi. destruct (Hitems i it Hi) as (k & r & _ & Hk & E & _ & Hf & Hpos).
    exists k, r. auto.
Qed.

Lemma collected_once_example :
  exists k r,
    concat two_batches !! k = Some r
    /\ withAgeSeconds (story "43" "6 minutes ago") (Some (Finite 360))
       = withAgeSeconds r (parseAgeToSeconds (Raw.age r))
    /\ (Raw.id r ∉ (Raw.id <$> take k (concat two_batches)))
    /\ 2 = size (ids (take k (concat two_batches))).
Proof.
  apply (proj2 (proj2 (collected_once_at_first_occurrence parseAgeToSeconds 100 two_batches))).
  vm_compute. reflexivity.
Defined.

(** C7: the collected sequence never has more than [COUNT] items; a set
    with [COUNT] items is left as it is by any further batches; and when a
    batch fills the set, the rest of that batch and all later batches leave
    no trace. *)
Theorem never_more_than_COUNT parse COUNT :
  (forall batches,
      length (collected (accumulate parse COUNT batches empty_set)) <= COUNT)
  /\ (forall cs batches,
        length (collected cs) = COUNT -> accumulate parse COUNT batches cs = cs)
  /\ (forall cs b1 b2 later,
        length (collected cs) < COUNT ->
        length (collected (collectPage parse COUNT b1 cs)) = COUNT ->
        accumulate parse COUNT ((b1 ++ b2) :: later) cs = collectPage parse COUNT b1 cs).
Proof.
  split; [| split].
  - intros batches. apply accumulate_length. simpl. lia.
  - intros cs batches H. apply accumulate_full. lia.
  - intros cs b1 b2 later Hlt Hfull. simpl.
    destruct (Nat.ltb_spec (length (collected cs)) COUNT) as [_ | Hge]; [| lia].
    rewrite collectPage_app by assumption. apply accumulate_full. lia.
Qed.

Lemma never_more_than_COUNT_example :
  accumulate parseAgeToSeconds 2
    (([story "41" "1 minute ago"; story "42" "2 minutes ago"]
        ++ [story "43" "3 minutes ago"])
       :: [[story "44" "4 minutes ago"]]) empty_set
  = collectPage parseAgeToSeconds 2
      [story "41" "1 minute ago"; story "42" "2 minutes ago"] empty_set.
Proof.
  apply (proj2 (proj2 (never_more_than_COUNT parseAgeToSeconds 2))).
  - simpl. lia.
  - vm_compute. reflexivity.
Defined.

(* ===================================================================== *)
(** * The crawl and the run                                                *)
(* ===================================================================== *)

Lemma ids_app_subseteq a b : ids a ⊆ ids (a ++ b).
Proof.
  intros x. rewrite !elem_of_ids, fmap_app, elem_of_app. tauto.
Qed.

Section Crawl.
Variable parse : jsstring -> option number.
Variable COUNT : nat.

Lemma scan_app a : forall b cs,
  scan parse COUNT (a ++ b) cs = scan parse COUNT b (scan parse COUNT a cs).
Proof.
  induction a as [| it a IH]; intros b cs; [reflexivity |]. simpl.
  destruct (Nat.leb_spec COUNT (length (collected cs))) as [Hfull | _].
  - symmetry. apply scan_full, Hfull.
  - destruct (skip it cs); apply IH.
Qed.

(** No more items than distinct non-empty identifiers. *)
Lemma scan_length_bound s :
  length (collected (scan parse COUNT s empty_set)) <= size (ids s).
Proof.
  destruct (scan_collected_from parse COUNT s s 0 empty_set) as (n & (_ & -> & _) & _);
    [lia | reflexivity | apply collected_from_start |].
  apply subseteq_size.
  rewrite <- (take_ge s (n + length s)) at 2 by lia. apply ids_take_mono. lia.
Qed.

Lemma collectPage_as_scan page cs :
  length (collected cs) < COUNT ->
  collectPage parse COUNT page cs = scan parse COUNT page cs.
Proof.
  intros H. rewrite <- (app_nil_r page) at 2.
  rewrite (collectPage_scan parse COUNT page cs [] H). reflexivity.
Qed.

(** When the feed has fewer than [COUNT] distinct identifiers (and every
    page has rows), the loop ends at the last page, waiting for a More
    link. *)
Lemma crawl_insufficient more : forall page done pagesVisited,
  Forall (fun p => p <> []) (page :: more) ->
  size (ids (done ++ concat (page :: more))) < COUNT ->
  crawl parse COUNT page more (scan parse COUNT done empty_set) pagesVisited
  = (scan parse COUNT (done ++ concat (page :: more)) empty_set,
     pagesVisited + length more, Some (Failed WaitForMore)).
Proof.
  induction more as [| next more IH]; intros page done v Hrows Hfew.
  - inversion Hrows as [| ? ? Hpage _]; subst. simpl concat in *.
    rewrite app_nil_r in *. unfold crawl.
    pose proof (scan_length_bound done) as Hdone.
    pose proof (subseteq_size _ _ (ids_app_subseteq done page)) as Hsub.
    destruct (Nat.ltb_spec (length (collected (scan parse COUNT done empty_set))) COUNT)
      as [Hlt | ?]; [| lia].
    destruct page as [| r page]; [congruence |]. cbn [getItemsOnPage].
    rewrite (collectPage_as_scan _ _ Hlt), <- scan_app.
    pose proof (scan_length_bound (done ++ r :: page)) as Hall.
    match goal with
    | |- context [?a <? COUNT] => destruct (Nat.ltb_spec a COUNT) as [_ | ?]; [| lia]
    end.
    rewrite Nat.add_0_r. reflexivity.
  - inversion Hrows as [| ? ? Hpage Hmore]; subst.
    cbn [crawl].
    change (concat (page :: next :: more)) with (page ++ concat (next :: more)) in *.
    pose proof (scan_length_bound done) as Hdone.
    pose proof (subseteq_size _ _ (ids_app_subseteq done (page ++ concat (next :: more))))
      as Hsub.
    destruct (Nat.ltb_spec (length (collected (scan parse COUNT done empty_set))) COUNT)
      as [Hlt | ?]; [| lia].
    destruct page as [| r page]; [congruence |]. cbn [getItemsOnPage].
    rewrite (collectPage_as_scan _ _ Hlt), <- scan_app.
    pose proof (scan_length_bound (done ++ r :: page)) as Hpre.
    rewrite app_assoc in Hfew.
    pose proof (subseteq_size _ _
                  (ids_app_subseteq (done ++ r :: page) (concat (next :: more)))) as Hsub'.
    match goal with
    | |- context [?a <? COUNT] => destruct (Nat.ltb_spec a COUNT) as [_ | ?]; [| lia]
    end.
    rewrite (IH next (done ++ r :: page) (S v) Hmore Hfew).
    cbn [length]. rewrite <- !app_assoc. f_equal. f_equal. lia.
Qed.

(** [collected] and [seen] at the end of the loop are what the accumulator
    holds after the pages the loop has fetched. *)
Lemma crawl_accumulate more : forall page cs v,
  exists n,
    (crawl parse COUNT page more cs v).1.1
    = accumulate parse COUNT (take n (page :: more)) cs.
Proof.
  induction more as [| next more IH]; intros page cs v; cbn [crawl];
    (destruct (length (collected cs) <? COUNT) eqn:G;
     [| exists 0; reflexivity]);
    (destruct page as [| r page]; cbn [getItemsOnPage];
     [exists 0; reflexivity |]);
    (destruct (length (collected (collectPage parse COUNT (r :: page) cs)) <? COUNT)
       eqn:G'; [| exists 1; cbn [take accumulate]; rewrite G; reflexivity]).
  - exists 1. cbn [take accumulate]. rewrite G. reflexivity.
  - destruct (IH next (collectPage parse COUNT (r :: page) cs) (S v)) as [n E].
    exists (S n). cbn [take accumulate]. rewrite G. exact E.
Qed.

(** The loop is left without an exception only with exactly [COUNT]
    items. *)
Lemma crawl_normal_full more : forall page cs v cs' v',
  length (collected cs) <= COUNT ->
  crawl parse COUNT page more cs v = (cs', v', None) ->
  length (collected cs') = COUNT.
Proof.
  induction more as [| next more IH]; intros page cs v cs' v' Hle; cbn [crawl];
    (destruct (Nat.ltb_spec (length (collected cs)) COUNT) as [Hlt | Hge];
     [| intros H; inversion H; subst; lia]);
    (destruct (getItemsOnPage page) as [pageItems | e]; [| discriminate]);
    pose proof (collectPage_length parse COUNT pageItems cs Hlt) as Hpage;
    (destruct (Nat.ltb_spec (length (collected (collectPage parse COUNT pageItems cs)))
                            COUNT) as [Hlt' | Hge']).
  - discriminate.
  - intros H; inversion H; subst; lia.
  - apply IH. lia.
  - intros H; inversion H; subst; lia.
Qed.
End Crawl.

Lemma scan_length_all parse COUNT s :
  size (ids s) < COUNT ->
  length (collected (scan parse COUNT s empty_set)) = size (ids s).
Proof.
  intros Hfew. pose proof (scan_length_bound parse COUNT s) as Hle.
  destruct (scan_collected_from parse COUNT s s 0 empty_set)
    as (n & (_ & E & _) & [-> | Hfull]);
    [lia | reflexivity | apply collected_from_start | | lia].
  rewrite E, firstn_all. reflexivity.
Qed.

(** The exceptions of the loop are time-outs of the two waits. *)
Lemma crawl_throws parse COUNT more : forall page cs v cs' v' e,
  crawl parse COUNT page more cs v = (cs', v', Some e) ->
  e = Failed WaitForRows \/ e = Failed WaitForMore.
Proof.
  induction more as [| next more IH]; intros page cs v cs' v' e; cbn [crawl];
    (destruct (_ <? _); [| discriminate]);
    (destruct page as [| r page]; cbn [getItemsOnPage];
     [intros H; inversion H; auto |]);
    (destruct (_ <? _); [| discriminate]).
  - intros H; inversion H; auto.
  - apply IH.
Qed.

Lemma validate_from_failure rest : forall k first f,
  validate_from k first rest = NotOk f ->
  exists i p c, f = parse_error i p c \/ f = sort_violation i p c.
Proof.
  induction rest as [| c rest IH]; intros k first f; simpl; [discriminate |].
  destruct (ageSeconds first), (ageSeconds c);
    try solve [intros H; inversion H; eauto].
  destruct (JsNumber.ltb _ _); [intros H; inversion H; eauto | apply IH].
Qed.

Lemma validate_failure items f :
  validateSortedNewestToOldest items = NotOk f ->
  exists i p c, f = parse_error i p c \/ f = sort_violation i p c.
Proof. destruct items; [discriminate | apply validate_from_failure]. Qed.

(** X23: with a natural number as [COUNT], the check
    [collected.length !== COUNT] after the loop never fires: whatever the
    world, the run does not throw its error, since the loop is left
    normally only at [collected.length === COUNT]. *)
Lemma expected_exactly_unreachable cfg w got :
  snd (try_block cfg w) <> Some (Error (expected_exactly (COUNT cfg) got)).
Proof.
  unfold try_block. destruct (goto_ok w); [| discriminate].
  destruct (crawl _ _ _ _ _ _) as [[cs visited] [e |]] eqn:C.
  - destruct (crawl_throws _ _ _ _ _ _ _ _ _ C) as [-> | ->]; discriminate.
  - apply crawl_normal_full in C; [| simpl; lia]. rewrite C, Nat.eqb_refl. simpl.
    destruct (validateSortedNewestToOldest (collected cs)) as [| f] eqn:V.
    + destruct (ARTIFACTS cfg); try discriminate.
      unfold writeArtifacts. destruct (ARTIFACTS cfg); try discriminate;
        destruct (pass_artifacts_ok w); discriminate.
    + destruct (validate_failure _ _ V) as (i & p & c & [-> | ->]); discriminate.
Qed.

(** With fewer than [COUNT] distinct identifiers in the feed, when the
    wait for rows succeeds on every page and every step to the next page
    but the last wait for the link succeeds, the run visits every page,
    collects every identifier once, and fails with the time-out of the wait
    for the More link, without a validation result. *)
Lemma insufficient_items_fail_as_timeout cfg w :
  goto_ok w = true ->
  Forall (fun p => p <> []) (start_page w :: more_pages w) ->
  size (ids (concat (start_page w :: more_pages w))) < COUNT cfg ->
  status (run cfg w) = FAIL
  /\ exitCode (run cfg w) = Some 1
  /\ detail (run cfg w) = [Thrown WaitForMore]
  /\ validationResult (run cfg w) = None
  /\ length (items (run cfg w)) = size (ids (concat (start_page w :: more_pages w)))
  /\ pagesVisited (run cfg w) = 1 + length (more_pages w).
Proof.
  intros Hgoto Hrows Hfew.
  pose proof (crawl_insufficient parseAgeToSeconds (COUNT cfg) (more_pages w)
                (start_page w) [] 1 Hrows Hfew) as C.
  change (scan parseAgeToSeconds (COUNT cfg) [] empty_set) with empty_set in C.
  rewrite app_nil_l in C.
  unfold run, try_block. rewrite Hgoto, C. simpl.
  repeat split. apply scan_length_all, Hfew.
Qed.

(** The items of a run are those of the accumulator fed the pages that
    the run has fetched, so that what holds of the accumulator holds of
    them. *)
Lemma run_items_accumulated cfg w :
  exists batches,
    items (run cfg w)
    = collected (accumulate parseAgeToSeconds (COUNT cfg) batches empty_set).
Proof.
  unfold run, try_block. destruct (goto_ok w); [| exists []; reflexivity].
  destruct (crawl_accumulate parseAgeToSeconds (COUNT cfg) (more_pages w)
              (start_page w) empty_set 1) as [n E].
  exists (take n (start_page w :: more_pages w)). rewrite <- E.
  destruct (crawl _ _ _ _ _ _) as [[cs visited] [e |]]; [reflexivity |].
  simpl. destruct (negb _); [reflexivity |].
  destruct (validateSortedNewestToOldest (collected cs)); [| reflexivity].
  destruct (ARTIFACTS cfg); try reflexivity.
  destruct (writeArtifacts _ _ _); reflexivity.
Qed.

(** X25: a failed write of the artifacts labelled 'fail' changes nothing
    in what the run reports. *)
Lemma fail_artifacts_swallowed cfg w b :
  let w' := {| goto_ok := goto_ok w; start_page := start_page w;
               more_pages := more_pages w; pass_artifacts_ok := pass_artifacts_ok w;
               fail_artifacts_ok := b; summary_ok := summary_ok w |} in
  status (run cfg w') = status (run cfg w)
  /\ exitCode (run cfg w') = exitCode (run cfg w)
  /\ detail (run cfg w') = detail (run cfg w)
  /\ console (run cfg w') = console (run cfg w).
Proof.
  intros w'. unfold run.
  assert (E : try_block cfg w' = try_block cfg w) by reflexivity. rewrite E.
  destruct (try_block cfg w) as [st [e |]]; simpl; repeat split.
Qed.

(** X26: a run whose validation succeeded has status PASS, and leaves
    the variable [process.exitCode] at 0 except when the artifacts labelled
    'pass' are asked for and their write fails.  This is about the variable:
    when the summary cannot be written, the exception of [writeSummary]
    leaves the run unhandled, whatever [process.exitCode] holds. *)
Lemma passed_run_exit_code cfg w :
  validationResult (run cfg w) = Some Ok ->
  status (run cfg w) = PASS
  /\ (exitCode (run cfg w) = Some 0 <->
      ~ (ARTIFACTS cfg = always /\ pass_artifacts_ok w = false))
  /\ (summary_ok w = false -> rejected (run cfg w) = Some (Failed SummaryWrite)).
Proof.
  intros Hv.
  assert (H : status (run cfg w) = PASS
              /\ (exitCode (run cfg w) = Some 0 <->
                  ~ (ARTIFACTS cfg = always /\ pass_artifacts_ok w = false))).
  { revert Hv. unfold run, try_block. destruct (goto_ok w); [| discriminate].
    destruct (crawl _ _ _ _ _ _) as [[cs visited] [e |]]; [discriminate |].
    destruct (negb _); [discriminate |].
    destruct (validateSortedNewestToOldest (collected cs)); [| discriminate].
    unfold writeArtifacts.
    destruct (ARTIFACTS cfg) eqn:A; simpl; intros _;
      try (split; [reflexivity | split; [intros _ [? _]; discriminate | reflexivity]]).
    destruct (pass_artifacts_ok w); simpl.
    - split; [reflexivity | split; [intros _ [_ ?]; discriminate | reflexivity]].
    - split; [reflexivity | split; [discriminate | intros H; destruct H; auto]]. }
  destruct H as [Hstatus Hcode].
  split; [exact Hstatus |]. split; [exact Hcode |].
  intros Hs. unfold run, writeSummary. rewrite Hs.
  destruct (try_block cfg w) as [st [e |]]; reflexivity.
Qed.

(* ===================================================================== *)
(** * Two runs                                                             *)
(* ===================================================================== *)

(** C8: with 80 stories in the feed and a target of 100, the run fails,
    but with the time-out of the wait for the More link as its detail: the
    error [Expected EXACTLY 100 items, got 80.] is not what it reports, nor
    is any other mark of too few items. *)
Theorem insufficient_items_reported_as_timeout :
  let o := run defaults feed_of_80 in
  status o = FAIL
  /\ exitCode o = Some 1
  /\ length (items o) = 80
  /\ pagesVisited o = 3
  /\ validationResult o = None
  /\ detail o = [Thrown WaitForMore]
  /\ detail o <> expected_exactly 100 80
  /\ Plain.run feed_of_80 = (1, Some [Thrown WaitForMore]).
Proof. vm_compute. repeat split. discriminate. Qed.

(** C9: with [ARTIFACTS=always], 100 stories in the right order and a
    failing write of the artifacts labelled 'pass', the validation succeeds
    and the status is PASS, but the exit code is 1 and FAIL is printed. *)
Theorem pass_artifact_failure_flips_exit_code :
  let o := run artifacts_always feed_of_120_no_screenshot in
  validationResult o = Some Ok
  /\ length (items o) = 100
  /\ status o = PASS
  /\ exitCode o = Some 1
  /\ console o = [LogPass; ErrorFail [Thrown ArtifactWrite]]
  /\ detail o = [Thrown ArtifactWrite].
Proof. vm_compute. repeat split. Qed.

(* ===================================================================== *)
(** * More about the validator                                             *)
(* ===================================================================== *)

Lemma number_le_trans x y z : JsNumber.le x y -> JsNumber.le y z -> JsNumber.le x z.
Proof.
  unfold JsNumber.le.
  destruct x as [a |], y as [b |], z as [c |]; simpl; try congruence.
  rewrite !N.ltb_ge. lia.
Qed.

Lemma passes_trans p m c : passes p m -> passes m c -> passes p c.
Proof.
  intros (x & y & Hx & Hy & Hxy) (y' & z & Hy' & Hz & Hyz).
  assert (y' = y) as -> by congruence.
  exists x, z. repeat split; try assumption. exact (number_le_trans x y z Hxy Hyz).
Qed.

Lemma validate_from_failure_at rest : forall k first f,
  validate_from k first rest = NotOk f ->
  exists j p c,
    (first :: rest) !! j = Some p /\ (first :: rest) !! S j = Some c
    /\ (forall j' p' c', j' < j -> (first :: rest) !! j' = Some p' ->
                         (first :: rest) !! S j' = Some c' -> passes p' c')
    /\ ((unparsed p c /\ f = parse_error (k + j) p c)
        \/ (out_of_order p c /\ f = sort_violation (k + j) p c)).
Proof.
  induction rest as [| c rest IH]; intros k first f H; [discriminate |].
  destruct (passes_or_fails first c) as [Hpass | [Hun | Hoo]].
  - rewrite (validate_from_step _ _ _ _ Hpass) in H.
    destruct (IH _ _ _ H) as (j & p & x & Hp & Hx & Hearlier & Hkind).
    exists (S j), p, x. split; [exact Hp |]. split; [exact Hx |]. split.
    + intros [| j'] p' c' Hj' Hp' Hc'.
      * simpl in Hp', Hc'. congruence.
      * apply (Hearlier j'); [lia | assumption | assumption].
    + replace (k + S j) with (S k + j) by lia. exact Hkind.
  - rewrite (validate_from_unparsed _ _ _ _ Hun) in H. inversion H; subst f.
    exists 0, first, c. rewrite Nat.add_0_r.
    split; [reflexivity |]. split; [reflexivity |]. split; [intros; lia | auto].
  - rewrite (validate_from_out_of_order _ _ _ _ Hoo) in H. inversion H; subst f.
    exists 0, first, c. rewrite Nat.add_0_r.
    split; [reflexivity |]. split; [reflexivity |]. split; [intros; lia | auto].
Qed.

(** X1: a failure that the validator returns is about a pair of the list:
    [prev] and [curr] are the items at [index - 1] and [index], every pair
    before them passes, and the kind says what is wrong with them: a
    missing age for PARSE_ERROR, a decrease for SORT_VIOLATION. *)
Theorem failure_points_at_first_failing_pair items f :
  validateSortedNewestToOldest items = NotOk f ->
  pair_at items (index f) (prev f) (curr f)
  /\ (forall j p c, j < index f -> pair_at items j p c -> passes p c)
  /\ ((kind f = PARSE_ERROR /\ unparsed (prev f) (curr f)
       /\ f = parse_error (index f) (prev f) (curr f))
      \/ (kind f = SORT_VIOLATION /\ out_of_order (prev f) (curr f)
          /\ f = sort_violation (index f) (prev f) (curr f))).
Proof.
  destruct items as [| first rest]; [discriminate |]. intros H.
  destruct (validate_from_failure_at rest 1 first f H)
    as (j & p & c & Hp & Hc & Hearlier & Hkind).
  assert (E : index f = S j /\ prev f = p /\ curr f = c)
    by (destruct Hkind as [[_ ->] | [_ ->]]; repeat split).
  destruct E as (Ei & Ep & Ec). rewrite Ei, Ep, Ec.
  split; [| split].
  - split; [lia |]. simpl. rewrite Nat.sub_0_r. split; assumption.
  - intros j' p' c' Hj' (Hj1 & Hp' & Hc'). destruct j' as [| j']; [lia |].
    simpl in Hp'. rewrite Nat.sub_0_r in Hp'.
    apply (Hearlier j'); [lia | assumption | assumption].
  - destruct Hkind as [[Hun ->] | [Hoo ->]]; [left | right]; repeat split; assumption.
Qed.

Lemma failure_points_at_first_failing_pair_example :
  pair_at ages_60_120_90_200 2 (item_aged "2" (Some (Finite 120)))
          (item_aged "3" (Some (Finite 90))).
Proof.
  exact (proj1 (failure_points_at_first_failing_pair ages_60_120_90_200
                  (sort_violation 2 (item_aged "2" (Some (Finite 120)))
                                    (item_aged "3" (Some (Finite 90))))
                  eq_refl)).
Defined.

(** X2: in a list that the validator accepts, any item and any later item
    both have their ages, and the later one is at least as old: the whole
    list is in order, not only its adjacent pairs. *)
Theorem accepted_list_is_sorted items i j p c :
  validateSortedNewestToOldest items = Ok ->
  i < j -> items !! i = Some p -> items !! j = Some c ->
  passes p c.
Proof.
  intros Hok. pose proof (proj1 (validate_ok_iff items) Hok) as Hadj.
  revert c. induction j as [| j IH]; intros c Hij Hp Hc; [lia |].
  destruct (lookup_lt_is_Some_2 items j) as [m Hm];
    [apply lookup_lt_Some in Hc; lia |].
  assert (Hmc : passes m c).
  { apply (Hadj (S j)). split; [lia |]. simpl. rewrite Nat.sub_0_r. auto. }
  destruct (decide (i = j)) as [-> | Hne].
  - congruence.
  - apply (passes_trans p m c); [| exact Hmc]. apply IH; [lia | assumption | assumption].
Qed.

Lemma accepted_list_is_sorted_example :
  passes (item_aged "1" (Some (Finite 60))) (item_aged "3" (Some (Finite 120))).
Proof.
  apply (accepted_list_is_sorted ages_60_60_120 0 2); [reflexivity | lia | reflexivity ..].
Defined.

Lemma validate_from_app rest more : forall k first f,
  validate_from k first rest = NotOk f ->
  validate_from k first (rest ++ more) = NotOk f.
Proof.
  induction rest as [| c rest IH]; intros k first f; simpl; [discriminate |].
  destruct (ageSeconds first), (ageSeconds c); try (intros H; exact H).
  destruct (JsNumber.ltb _ _); [intros H; exact H | apply IH].
Qed.

(** X3: what comes after does not change the verdict on what comes before:
    a failure found in a list is the failure found in any extension of it,
    and a list that is accepted has all its prefixes accepted. *)
Theorem verdict_stable_under_extension items more :
  (forall f, validateSortedNewestToOldest items = NotOk f ->
             validateSortedNewestToOldest (items ++ more) = NotOk f)
  /\ (validateSortedNewestToOldest (items ++ more) = Ok ->
      validateSortedNewestToOldest items = Ok).
Proof.
  split.
  - destruct items as [| first rest]; [discriminate |]. intros f H.
    apply (validate_from_app rest more 1 first f H).
  - intros H. apply validate_ok_iff. intros i p c (Hi & Hp & Hc).
    apply (proj1 (validate_ok_iff _) H i). split; [exact Hi |].
    split; apply lookup_app_l_Some; assumption.
Qed.

Lemma verdict_stable_under_extension_example :
  validateSortedNewestToOldest (ages_60_120_90_200 ++ ages_60_60_120)
  = NotOk (sort_violation 2 (item_aged "2" (Some (Finite 120)))
                            (item_aged "3" (Some (Finite 90)))).
Proof.
  apply (proj1 (verdict_stable_under_extension ages_60_120_90_200 ages_60_60_120)).
  reflexivity.
Defined.

Lemma assert_from_plain_message rest : forall k first,
  Plain.assert_from k first rest
  = match validate_from k first rest with
    | Ok => Normal tt
    | NotOk f => Throw (Error (plain_message f))
    end.
Proof.
  induction rest as [| c rest IH]; intros k first; simpl; [reflexivity |].
  destruct (ageSeconds first), (ageSeconds c); try reflexivity.
  destruct (JsNumber.ltb _ _); [reflexivity | apply IH].
Qed.

(** X4: the two editions judge every list alike: the plain script returns
    normally where the other returns [{ ok: true }], and where the other
    returns a failure it throws the error about the same pair, with the
    same position for a sort violation. *)
Theorem editions_judge_alike items :
  Plain.assertSortedNewestToOldest items
  = match validateSortedNewestToOldest items with
    | Ok => Normal tt
    | NotOk f => Throw (Error (plain_message f))
    end.
Proof. destruct items as [| first rest]; [reflexivity | apply assert_from_plain_message]. Qed.

(* ===================================================================== *)
(** * More about the age parser                                            *)
(* ===================================================================== *)

(** X5: the regular expression matches exactly the labels of the grammar:
    digits, white space, one of the six unit words and [ago] in any case of
    letters, with white space before [ago], and nothing else around. *)
Theorem regex_matches_exactly_the_grammar s :
  (exists m1 m2, regex_match s = Some (m1, m2)) <-> (exists count u, Grammar s count u).
Proof.
  split.
  - intros (m1 & m2 & H). destruct (regex_match_sound s m1 m2 H) as (u & sp & G & _).
    exists (decimal m1), u. exact G.
  - intros (count & u & G).
    destruct (regex_match_complete s count u G) as (m1 & m2 & sp & H & _).
    exists m1, m2. exact H.
Qed.

Lemma parse_of_match s m1 m2 :
  regex_match (trim s) = Some (m1, m2) ->
  exists x y, parseAgeToSeconds s = Some x /\ Plain.parseAgeToSeconds s = Some y.
Proof.
  intros H. unfold parseAgeToSeconds, Plain.parseAgeToSeconds. rewrite H.
  destruct (regex_match_sound _ _ _ H) as (u & sp & _ & Hin & Hci).
  rewrite (toLowerCase_same_ci m2 sp (spelling_lower u sp Hin) Hci).
  rewrite !(unit_branch u sp) by exact Hin.
  destruct u; eauto.
Qed.

(** X6: the parser returns [null] only for a string that the regular
    expression does not match once trimmed: after a match one of the three
    unit tests succeeds, and the [return null] that ends the function is
    never reached. This holds for both editions. *)
Theorem null_only_without_match s :
  (parseAgeToSeconds s = None <-> regex_match (trim s) = None)
  /\ (Plain.parseAgeToSeconds s = None <-> regex_match (trim s) = None).
Proof.
  split; (split;
    [ intros H; destruct (regex_match (trim s)) as [[m1 m2] |] eqn:M; [| reflexivity];
      destruct (parse_of_match s m1 m2 M) as (x & y & Hx & Hy); congruence
    | intros H; unfold parseAgeToSeconds, Plain.parseAgeToSeconds; rewrite H; reflexivity ]).
Qed.

Lemma dropWhile_all p a b : forallb p a = true -> dropWhile p (a ++ b) = dropWhile p b.
Proof.
  induction a as [| c a IH]; simpl; intros H; [reflexivity |].
  apply andb_true_iff in H as [Hc Ha]. rewrite Hc. auto.
Qed.

Lemma dropWhile_app_keep p s b :
  dropWhile p s <> [] -> dropWhile p (s ++ b) = dropWhile p s ++ b.
Proof.
  induction s as [| c s IH]; simpl; intros H; [congruence |].
  destruct (p c); [auto | reflexivity].
Qed.

Lemma dropWhile_nil_all p s : dropWhile p s = [] -> forallb p s = true.
Proof.
  induction s as [| c s IH]; simpl; [reflexivity |].
  destruct (p c); [auto | discriminate].
Qed.

Lemma forallb_rev p (s : jsstring) : forallb p s = true -> forallb p (rev s) = true.
Proof.
  rewrite !forallb_forall. intros H x Hx. apply H, in_rev, Hx.
Qed.

(** White space around a string does not survive [trim]. *)
Lemma trim_padding a s b :
  forallb is_space a = true -> forallb is_space b = true ->
  trim (a ++ s ++ b) = trim s.
Proof.
  intros Ha Hb. unfold trim. rewrite (dropWhile_all _ a _ Ha).
  destruct (dropWhile is_space s) as [| c t] eqn:D.
  - apply dropWhile_nil_all in D.
    assert (E : dropWhile is_space (s ++ b) = []).
    { rewrite (dropWhile_all _ s b D).
      rewrite <- (app_nil_r b). rewrite (dropWhile_all _ b [] Hb). reflexivity. }
    rewrite E. reflexivity.
  - rewrite dropWhile_app_keep by (rewrite D; discriminate). rewrite D.
    rewrite rev_app_distr. rewrite (dropWhile_all _ (rev b) _ (forallb_rev _ _ Hb)).
    reflexivity.
Qed.

(** X7: white space before and after a label makes no difference to what
    it parses to, in either edition. *)
Theorem parse_ignores_surrounding_space a s b :
  forallb is_space a = true -> forallb is_space b = true ->
  parseAgeToSeconds (a ++ s ++ b) = parseAgeToSeconds s
  /\ Plain.parseAgeToSeconds (a ++ s ++ b) = Plain.parseAgeToSeconds s.
Proof.
  intros Ha Hb. unfold parseAgeToSeconds, Plain.parseAgeToSeconds.
  rewrite (trim_padding a s b Ha Hb). split; reflexivity.
Qed.

Lemma parse_ignores_surrounding_space_example :
  parseAgeToSeconds (lit "  " ++ lit "3 hours ago" ++ [9; 160]%N)
  = parseAgeToSeconds (lit "3 hours ago").
Proof.
  apply (parse_ignores_surrounding_space (lit "  ") (lit "3 hours ago") [9; 160]%N);
    vm_compute; reflexivity.
Defined.

Lemma trim_trim s : trim (trim s) = trim s.
Proof.
  pose proof (takeWhile_dropWhile is_space s) as E1.
  set (t := dropWhile is_space s) in *.
  pose proof (takeWhile_dropWhile is_space (rev t)) as E2.
  assert (Et : t = trim s ++ rev (takeWhile is_space (rev t))).
  { unfold trim. fold t. rewrite <- rev_app_distr, E2, rev_involutive. reflexivity. }
  assert (Es : s = takeWhile is_space s ++ trim s ++ rev (takeWhile is_space (rev t))).
  { rewrite <- Et. symmetry. exact E1. }
  rewrite Es at 2. symmetry. apply trim_padding.
  - apply takeWhile_all.
  - apply forallb_rev, takeWhile_all.
Qed.

(** X8: trimming the text of [span.age] when the row is read changes
    nothing for the parser: the age of the record parses to what the raw
    text parses to, and a row without that text gives [null]. *)
Theorem extracted_age_parses_as_raw_text row :
  parseAgeToSeconds (Raw.age (rowRecord row))
  = match age_text row with
    | Some text => parseAgeToSeconds text
    | None => None
    end.
Proof.
  unfold rowRecord. simpl. destruct (age_text row) as [text |]; simpl; [| reflexivity].
  unfold parseAgeToSeconds. rewrite trim_trim. reflexivity.
Qed.

(* ===================================================================== *)
(** * More about the accumulator                                           *)
(* ===================================================================== *)

Section MoreAccumulator.
Variable parse : jsstring -> option number.
Variable COUNT : nat.

Lemma collectPage_seen batch : forall cs,
  seen cs = list_to_set (id <$> collected cs) ->
  seen (collectPage parse COUNT batch cs)
  = list_to_set (id <$> collected (collectPage parse COUNT batch cs)).
Proof.
  induction batch as [| it batch IH]; intros cs H; cbn [collectPage]; [exact H |].
  assert (Hpush : seen (push parse it cs)
                  = list_to_set (id <$> collected (push parse it cs))).
  { simpl. rewrite fmap_app, list_to_set_app_L, H. simpl.
    rewrite (right_id_L ∅ (∪)). apply (comm_L (∪)). }
  destruct (skip it cs); [apply IH, H |].
  destruct (_ =? _); [exact Hpush | apply IH, Hpush].
Qed.

Lemma accumulate_seen batches : forall cs,
  seen cs = list_to_set (id <$> collected cs) ->
  seen (accumulate parse COUNT batches cs)
  = list_to_set (id <$> collected (accumulate parse COUNT batches cs)).
Proof.
  induction batches as [| b later IH]; intros cs H; cbn [accumulate]; [exact H |].
  destruct (_ <? _); [apply IH, collectPage_seen, H | exact H].
Qed.

Lemma scan_prefix stream : forall cs,
  collected cs `prefix_of` collected (scan parse COUNT stream cs).
Proof.
  induction stream as [| it rest IH]; intros cs; cbn [scan]; [reflexivity |].
  destruct (_ <=? _); [reflexivity |].
  destruct (skip it cs); [apply IH |].
  transitivity (collected (push parse it cs)); [| apply IH].
  simpl. apply prefix_app_r. reflexivity.
Qed.

Lemma collected_from_NoDup s n cs :
  collected_from parse s n cs -> NoDup (id <$> collected cs).
Proof.
  intros (_ & _ & Hitems). apply NoDup_alt. intros i j x Hi Hj.
  rewrite list_lookup_fmap in Hi, Hj.
  destruct (collected cs !! i) as [a |] eqn:Ea; [| discriminate].
  destruct (collected cs !! j) as [b |] eqn:Eb; [| discriminate].
  simpl in Hi, Hj.
  destruct (Hitems i a Ea) as (ka & ra & _ & Hka & -> & _ & Hfa & ->).
  destruct (Hitems j b Eb) as (kb & rb & _ & Hkb & -> & _ & Hfb & ->).
  simpl in Hi, Hj. inversion Hi as [Hida]. inversion Hj as [Hidb].
  assert (ka = kb) as ->; [| reflexivity].
  destruct (Nat.lt_trichotomy ka kb) as [Hlt | [? | Hlt]]; [| assumption |]; exfalso.
  - apply Hfb. apply list_elem_of_fmap. exists ra. split; [congruence |].
    apply list_elem_of_lookup. exists ka. apply lookup_take_Some. auto.
  - apply Hfa. apply list_elem_of_fmap. exists rb. split; [congruence |].
    apply list_elem_of_lookup. exists kb. apply lookup_take_Some. auto.
Qed.
End MoreAccumulator.

(** X9: after any batches, [seen] holds exactly the identifiers of the
    collected items, and as many of them as there are items. *)
Theorem seen_is_the_collected_identifiers parse COUNT batches :
  let cs := accumulate parse COUNT batches empty_set in
  seen cs = list_to_set (id <$> collected cs)
  /\ size (seen cs) = length (collected cs).
Proof.
  intros cs. split.
  - apply accumulate_seen. reflexivity.
  - destruct (accumulate_collected_from parse COUNT batches) as (n & (Hseen & Hlen & _) & _).
    fold cs in Hseen, Hlen. rewrite Hseen, Hlen. reflexivity.
Qed.

(** X10: the accumulator collects as many items as the batches have
    distinct non-empty identifiers, up to [COUNT]: nothing that could be
    collected is left out. *)
Theorem collects_all_up_to_COUNT parse COUNT batches :
  length (collected (accumulate parse COUNT batches empty_set))
  = Nat.min COUNT (size (ids (concat batches))).
Proof.
  pose proof (accumulate_length parse COUNT batches empty_set) as Hmax.
  simpl in Hmax. specialize (Hmax (Nat.le_0_l _)).
  pose proof (scan_length_bound parse COUNT (concat batches)) as Hids.
  rewrite <- accumulate_scan in Hids.
  destruct (accumulate_collected_from parse COUNT batches)
    as (n & (_ & Hlen & _) & [-> | Hfull]).
  - rewrite firstn_all in Hlen. lia.
  - lia.
Qed.

(** X11: feeding more batches only adds at the end: the items collected
    from some batches are the first items collected from these batches and
    more. *)
Theorem collected_grows_at_the_end parse COUNT batches more :
  collected (accumulate parse COUNT batches empty_set)
  `prefix_of` collected (accumulate parse COUNT (batches ++ more) empty_set).
Proof.
  rewrite !accumulate_scan, concat_app, scan_app. apply scan_prefix.
Qed.

(** X12: of the accumulator taken alone, the [for] loop under the guard
    of the [while], fed the batches that [getItemsOnPage] has returned:
    where the records are cut into batches makes no difference, batches
    with the same records in the same order leave the same [collected] and
    [seen].  The waits of the script are no part of this: a page without
    rows is no batch there, the wait for its rows times out. *)
Theorem page_boundaries_do_not_matter parse COUNT batches batches' cs :
  concat batches = concat batches' ->
  accumulate parse COUNT batches cs = accumulate parse COUNT batches' cs.
Proof. intros H. rewrite !accumulate_scan, H. reflexivity. Qed.

Lemma page_boundaries_do_not_matter_example :
  accumulate parseAgeToSeconds 100 two_batches empty_set
  = accumulate parseAgeToSeconds 100 [concat two_batches] empty_set.
Proof.
  apply (page_boundaries_do_not_matter parseAgeToSeconds 100 two_batches
           [concat two_batches]).
  vm_compute. reflexivity.
Defined.

(** X13: every collected item was read from a row of some page that has a
    non-empty [id] attribute, and carries that row's trimmed title and age
    and the age parsed from it. *)
Theorem collected_items_come_from_rows parse COUNT (pages : list (list Row)) it :
  it ∈ collected (accumulate parse COUNT (map evaluateRows pages) empty_set) ->
  exists row,
    row ∈ concat pages
    /\ attr_id row = Some (id it) /\ id it <> []
    /\ it = withAgeSeconds (rowRecord row) (parse (Raw.age (rowRecord row))).
Proof.
  intros Hin. apply list_elem_of_lookup in Hin as [i Hi].
  destruct (accumulate_collected_from parse COUNT (map evaluateRows pages))
    as (n & (_ & _ & Hitems) & _).
  destruct (Hitems i it Hi) as (k & r & _ & Hk & -> & Hne & _).
  assert (Hr : r ∈ concat (map evaluateRows pages))
    by (apply list_elem_of_lookup; eauto).
  assert (Hrow : exists row, row ∈ concat pages /\ r = rowRecord row).
  { clear -Hr. induction pages as [| page pages IH]; simpl in Hr.
    - inversion Hr.
    - apply elem_of_app in Hr as [Hr | Hr].
      + unfold evaluateRows in Hr. apply list_elem_of_In, in_map_iff in Hr
          as (row & <- & Hrow). exists row. split; [| reflexivity].
        simpl. apply elem_of_app. left. apply list_elem_of_In, Hrow.
      + destruct (IH Hr) as (row & Hrow & ->). exists row. split; [| reflexivity].
        simpl. apply elem_of_app. right. exact Hrow. }
  destruct Hrow as (row & Hrow & ->). exists row.
  split; [exact Hrow |]. split; [| split; [exact Hne | reflexivity]].
  simpl in *. destruct (attr_id row) as [a |]; [reflexivity | contradiction].
Qed.

Lemma collected_items_come_from_rows_example :
  exists row,
    row ∈ concat [[mkRow None (Some (lit "a")) None;
                   mkRow (Some (lit "7")) (Some (lit " b ")) (Some (lit "2 hours ago "))]]
    /\ attr_id row = Some (lit "7") /\ lit "7" <> []
    /\ mkItem (lit "7") (lit "b") (lit "2 hours ago") (Some (Finite 7200))
       = withAgeSeconds (rowRecord row) (parseAgeToSeconds (Raw.age (rowRecord row))).
Proof.
  apply (collected_items_come_from_rows parseAgeToSeconds 100
           [[mkRow None (Some (lit "a")) None;
             mkRow (Some (lit "7")) (Some (lit " b ")) (Some (lit "2 hours ago "))]]
           (mkItem (lit "7") (lit "b") (lit "2 hours ago") (Some (Finite 7200)))).
  vm_compute. apply list_elem_of_here.
Defined.

(* ===================================================================== *)
(** * More about the run                                                   *)
(* ===================================================================== *)

(** X14: the exit code is 0 only after a validation that succeeded on
    exactly [COUNT] collected items: the status is then PASS, nothing is
    reported as a failure, and the items are those that were validated. *)
Theorem exit_code_zero_means_validated cfg w :
  exitCode (run cfg w) = Some 0 ->
  status (run cfg w) = PASS
  /\ validationResult (run cfg w) = Some Ok
  /\ validateSortedNewestToOldest (items (run cfg w)) = Ok
  /\ length (items (run cfg w)) = COUNT cfg
  /\ detail (run cfg w) = []
  /\ console (run cfg w) = [LogPass].
Proof.
  unfold run, try_block. destruct (goto_ok w); [| discriminate].
  destruct (crawl _ _ _ _ _ _) as [[cs visited] [e |]] eqn:C; [discriminate |].
  apply crawl_normal_full in C; [| simpl; lia].
  rewrite C, Nat.eqb_refl. simpl.
  destruct (validateSortedNewestToOldest (collected cs)) eqn:V; [| discriminate].
  unfold writeArtifacts.
  destruct (ARTIFACTS cfg); simpl; try (intros _; repeat split; assumption).
  destruct (pass_artifacts_ok w); simpl; [| discriminate].
  intros _; repeat split; assumption.
Qed.

Lemma exit_code_zero_means_validated_example :
  length (items (run defaults feed_of_120)) = 100.
Proof.
  apply (exit_code_zero_means_validated defaults feed_of_120).
  vm_compute. reflexivity.
Defined.

(** X15: a failed validation is reported as it is: when a failure is
    attached as validation result, it is what the validator returns on the
    [COUNT] items collected, the status is FAIL, [process.exitCode] is 1,
    the detail and the one line on the console are the message of the
    failure, no artifacts labelled 'pass' are written, and the summary, when
    it can be written, carries the status and the message. *)
Theorem failed_validation_is_reported cfg w f :
  validationResult (run cfg w) = Some (NotOk f) ->
  validateSortedNewestToOldest (items (run cfg w)) = NotOk f
  /\ length (items (run cfg w)) = COUNT cfg
  /\ status (run cfg w) = FAIL
  /\ exitCode (run cfg w) = Some 1
  /\ detail (run cfg w) = message f
  /\ console (run cfg w) = [ErrorFail (message f)]
  /\ ~ In pass (artifacts (run cfg w))
  /\ (summary_ok w = true ->
      summary (run cfg w)
      = Some {| summary_count := COUNT cfg;
                summary_pagesVisited := pagesVisited (run cfg w);
                summary_status := FAIL;
                summary_detail := Some (message f) |}).
Proof.
  unfold run, try_block. destruct (goto_ok w); [| discriminate].
  destruct (crawl _ _ _ _ _ _) as [[cs visited] [e |]] eqn:C; [discriminate |].
  apply crawl_normal_full in C; [| simpl; lia].
  rewrite C, Nat.eqb_refl. simpl.
  destruct (validateSortedNewestToOldest (collected cs)) as [| g] eqn:V.
  - destruct (ARTIFACTS cfg); try discriminate.
    destruct (writeArtifacts _ _ _); discriminate.
  - intros H. inversion H; subst g. clear H. simpl.
    split; [exact V |]. split; [exact C |].
    split; [reflexivity |]. split; [reflexivity |].
    split; [reflexivity |]. split; [reflexivity |]. split.
    + unfold writeArtifacts.
      destruct (ARTIFACTS cfg); simpl; try tauto;
        destruct (fail_artifacts_ok w); simpl; intuition discriminate.
    + intros Hs. unfold writeSummary. rewrite Hs.
      destruct (validate_failure _ _ V) as (i & p & c & [-> | ->]); reflexivity.
Qed.

Lemma failed_validation_is_reported_example :
  exists f,
    validationResult (run count_of_3 feed_out_of_order) = Some (NotOk f)
    /\ kind f = SORT_VIOLATION /\ index f = 1
    /\ exitCode (run count_of_3 feed_out_of_order) = Some 1
    /\ detail (run count_of_3 feed_out_of_order) = message f.
Proof.
  assert (validationResult (run count_of_3 feed_out_of_order)
          = Some (NotOk (sort_violation 1
               (withAgeSeconds (story "71" "3 minutes ago") (Some (Finite 180)))
               (withAgeSeconds (story "72" "1 minute ago") (Some (Finite 60))))))
    as E by (vm_compute; reflexivity).
  destruct (failed_validation_is_reported count_of_3 feed_out_of_order _ E)
    as (_ & _ & _ & Hcode & Hdetail & _).
  eexists. split; [exact E |]. split; [reflexivity |]. split; [reflexivity |].
  split; [exact Hcode | exact Hdetail].
Defined.

(** X16: which artifacts are written: none with [ARTIFACTS] off or
    unknown; those labelled 'pass' only with [ARTIFACTS=always] after a
    successful validation; those labelled 'fail' only when the exit code
    is 1. *)
Theorem artifacts_follow_the_setting cfg w :
  (ARTIFACTS cfg = off \/ ARTIFACTS cfg = other -> artifacts (run cfg w) = [])
  /\ (In pass (artifacts (run cfg w)) ->
      ARTIFACTS cfg = always /\ validationResult (run cfg w) = Some Ok)
  /\ (In fail (artifacts (run cfg w)) ->
      exitCode (run cfg w) = Some 1
      /\ (ARTIFACTS cfg = on_fail \/ ARTIFACTS cfg = always)).
Proof.
  unfold run, try_block, catch_block, writeArtifacts.
  destruct (goto_ok w);
    [destruct (crawl _ _ _ _ _ _) as [[cs visited] [e |]];
     [| destruct (negb _);
        [| destruct (validateSortedNewestToOldest (collected cs)) as [| f]]] |];
    destruct (ARTIFACTS cfg) eqn:A; simpl;
    try destruct (pass_artifacts_ok w); try destruct (fail_artifacts_ok w); simpl;
    (split; [| split]);
    try (intros [? | ?]; solve [discriminate | reflexivity]);
    try (intros []; fail);
    try (intros [H | H]; try discriminate H; try destruct H; try (destruct H; fail);
         split; solve [reflexivity | auto]);
    try (intros _; reflexivity).
Qed.

(** X17: with [COUNT=0] the loop is not entered: no row is read, not even
    from a page without rows, the empty list is validated, and the status
    is PASS. *)
Theorem count_zero_passes_without_reading cfg w :
  COUNT cfg = 0 -> goto_ok w = true ->
  status (run cfg w) = PASS
  /\ items (run cfg w) = []
  /\ pagesVisited (run cfg w) = 1
  /\ validationResult (run cfg w) = Some Ok.
Proof.
  intros H0 Hgoto. unfold run, try_block. rewrite Hgoto, H0.
  assert (C : crawl parseAgeToSeconds 0 (start_page w) (more_pages w) empty_set 1
              = (empty_set, 1, None)) by (destruct (more_pages w); reflexivity).
  rewrite C. simpl.
  destruct (ARTIFACTS cfg); simpl; try (repeat split; reflexivity).
  destruct (writeArtifacts _ _ _); repeat split.
Qed.

Lemma count_zero_passes_without_reading_example :
  status (run {| COUNT := 0; ARTIFACTS := on_fail |}
              {| goto_ok := true; start_page := []; more_pages := [];
                 pass_artifacts_ok := true; fail_artifacts_ok := true;
                 summary_ok := true |}) = PASS.
Proof.
  apply (count_zero_passes_without_reading
           {| COUNT := 0; ARTIFACTS := on_fail |}
           {| goto_ok := true; start_page := []; more_pages := [];
              pass_artifacts_ok := true; fail_artifacts_ok := true;
              summary_ok := true |}); reflexivity.
Defined.

(** X18: the items of any run, failed or not, have pairwise distinct,
    non-empty identifiers. *)
Theorem run_items_are_distinct cfg w :
  NoDup (id <$> items (run cfg w))
  /\ (forall it, it ∈ items (run cfg w) -> id it <> []).
Proof.
  destruct (run_items_accumulated cfg w) as [batches ->].
  destruct (accumulate_collected_from parseAgeToSeconds (COUNT cfg) batches)
    as (n & Hfrom & _).
  split.
  - apply (collected_from_NoDup _ _ _ _ Hfrom).
  - intros it Hin. apply list_elem_of_lookup in Hin as [i Hi].
    destruct Hfrom as (_ & _ & Hitems).
    destruct (Hitems i it Hi) as (k & r & _ & _ & -> & Hne & _). exact Hne.
Qed.

Lemma ids_app_l (a b : list Raw.t) : ids a ⊆ ids (a ++ b).
Proof. intros x. rewrite !elem_of_ids, fmap_app, elem_of_app. tauto. Qed.

Lemma crawl_length_bound parse COUNT more page v :
  length (collected (crawl parse COUNT page more empty_set v).1.1)
  <= size (ids (concat (page :: more))).
Proof.
  destruct (crawl_accumulate parse COUNT more page empty_set v) as [n ->].
  rewrite accumulate_scan.
  etransitivity; [apply scan_length_bound |].
  apply subseteq_size.
  rewrite <- (take_drop n (page :: more)) at 2. rewrite concat_app. apply ids_app_l.
Qed.

(** X24: with a natural number as [COUNT] and fewer than [COUNT] distinct
    non-empty identifiers on the pages of the feed, the run cannot pass,
    however it fails: the status is not PASS, [process.exitCode] is not 0,
    the validator is never called, fewer than [COUNT] items are collected,
    the PASS line is not printed and no artifacts labelled 'pass' are
    written. *)
Theorem too_few_identifiers_never_pass cfg w :
  size (ids (concat (start_page w :: more_pages w))) < COUNT cfg ->
  status (run cfg w) <> PASS
  /\ exitCode (run cfg w) <> Some 0
  /\ validationResult (run cfg w) = None
  /\ length (items (run cfg w)) < COUNT cfg
  /\ ~ In LogPass (console (run cfg w))
  /\ ~ In pass (artifacts (run cfg w)).
Proof.
  intros Hfew.
  pose proof (crawl_length_bound parseAgeToSeconds (COUNT cfg) (more_pages w)
                (start_page w) 1) as Hb.
  unfold run, try_block. destruct (goto_ok w).
  - destruct (crawl _ _ _ _ _ _) as [[cs visited] [e |]] eqn:C; cbn [fst] in Hb.
    + simpl. split; [discriminate |]. split; [discriminate |].
      split; [reflexivity |]. split; [lia |]. split.
      * intros [? | []]; discriminate.
      * unfold writeArtifacts.
        destruct (ARTIFACTS cfg); simpl; try tauto;
          destruct (fail_artifacts_ok w); simpl; intuition discriminate.
    + apply crawl_normal_full in C; [lia | simpl; lia].
  - simpl. split; [discriminate |]. split; [discriminate |].
    split; [reflexivity |]. split; [lia |]. split.
    + intros [? | []]; discriminate.
    + unfold writeArtifacts.
      destruct (ARTIFACTS cfg); simpl; try tauto;
        destruct (fail_artifacts_ok w); simpl; intuition discriminate.
Qed.

Lemma too_few_identifiers_never_pass_example :
  exitCode (run defaults feed_of_80) <> Some 0
  /\ validationResult (run defaults feed_of_80) = None
  /\ length (items (run defaults feed_of_80)) < 100.
Proof.
  destruct (too_few_identifiers_never_pass defaults feed_of_80)
    as (_ & Hcode & Hv & Hlen & _).
  - apply Nat.ltb_lt. vm_compute. reflexivity.
  - split; [exact Hcode |]. split; [exact Hv | exact Hlen].
Defined.

(** X19: when an empty page is met before [COUNT] items are collected,
    the run fails with the time-out of the wait for rows, whether or not
    there are pages behind it. *)
Theorem page_without_rows_times_out cfg w :
  goto_ok w = true -> start_page w = [] -> 0 < COUNT cfg ->
  exitCode (run cfg w) = Some 1
  /\ detail (run cfg w) = [Thrown WaitForRows]
  /\ items (run cfg w) = []
  /\ pagesVisited (run cfg w) = 1.
Proof.
  intros Hgoto Hpage Hcount. unfold run, try_block. rewrite Hgoto, Hpage.
  assert (C : crawl parseAgeToSeconds (COUNT cfg) [] (more_pages w) empty_set 1
              = (empty_set, 1, Some (Failed WaitForRows))).
  { destruct (more_pages w); cbn [crawl]; simpl length;
      destruct (Nat.ltb_spec 0 (COUNT cfg)); try lia; reflexivity. }
  rewrite C. simpl. repeat split.
Qed.

Lemma page_without_rows_times_out_example :
  detail (run defaults {| goto_ok := true; start_page := []; more_pages := [stories 1 30];
                          pass_artifacts_ok := true; fail_artifacts_ok := true;
                          summary_ok := true |}) = [Thrown WaitForRows].
Proof.
  apply (page_without_rows_times_out defaults
           {| goto_ok := true; start_page := []; more_pages := [stories 1 30];
              pass_artifacts_ok := true; fail_artifacts_ok := true;
              summary_ok := true |}); [reflexivity | reflexivity | simpl; lia].
Defined.

(* ===================================================================== *)
(** * The time stamp                                                       *)
(* ===================================================================== *)

Section Stamp.
Local Open Scope N_scope.

(** A check made on every number of a range holds of each of them. *)
Lemma check_range (P : N -> bool) (lo len : nat) :
  forallb P (map N.of_nat (seq lo len)) = true ->
  forall n, N.of_nat lo <= n < N.of_nat (lo + len) -> P n = true.
Proof.
  intros H n Hn. rewrite forallb_forall in H. apply H.
  apply in_map_iff. exists (N.to_nat n). split; [apply N2Nat.id |].
  apply in_seq. lia.
Qed.

(** [pad] of a number below 100: two digits that read as the number. *)
Lemma pad_two_digits n :
  n < 100 ->
  length (pad n) = 2%nat /\ forallb is_digit (pad n) = true /\ decimal (pad n) = n.
Proof.
  intros Hn.
  pose proof (check_range
    (fun n => (length (pad n) =? 2)%nat && forallb is_digit (pad n)
              && (decimal (pad n) =? n))
    0 100) as H.
  specialize (H ltac:(vm_compute; reflexivity) n ltac:(lia)).
  apply andb_true_iff in H as [H H3]. apply andb_true_iff in H as [H1 H2].
  apply Nat.eqb_eq in H1. apply N.eqb_eq in H3. auto.
Qed.

(** [String] of a year of four digits. *)
Lemma year_four_digits y :
  1000 <= y < 10000 ->
  length (ToString y) = 4%nat /\ forallb is_digit (ToString y) = true
  /\ decimal (ToString y) = y.
Proof.
  intros Hy.
  pose proof (check_range
    (fun n => (length (ToString n) =? 4)%nat && forallb is_digit (ToString n)
              && (decimal (ToString n) =? n))
    (N.to_nat 1000) (N.to_nat 9000)) as H.
  specialize (H ltac:(vm_compute; reflexivity) y ltac:(lia)).
  apply andb_true_iff in H as [H H3]. apply andb_true_iff in H as [H1 H2].
  apply Nat.eqb_eq in H1. apply N.eqb_eq in H3. auto.
Qed.

(** The value of digits read after an accumulated value [x]. *)
Lemma decimal_bounds ds : forall x,
  forallb is_digit ds = true ->
  let v := fold_left (fun acc c => 10 * acc + digit_value c) ds x in
  x * 10 ^ N.of_nat (length ds) <= v < (x + 1) * 10 ^ N.of_nat (length ds).
Proof.
  induction ds as [| c ds IH]; intros x Hd; cbn [fold_left length].
  - simpl. lia.
  - simpl in Hd. apply andb_true_iff in Hd as [Hc Hd].
    specialize (IH (10 * x + digit_value c) Hd). cbv zeta in IH.
    apply is_digit_range in Hc. unfold digit_value in *.
    rewrite Nat2N.inj_succ, N.pow_succ_r'.
    set (p := 10 ^ N.of_nat (length ds)) in *.
    set (v := fold_left _ ds _) in *. nia.
Qed.

(** On digit strings of one length the order of strings is the order of
    the numbers they read as. *)
Lemma string_ltb_digits a : forall b x,
  length a = length b ->
  forallb is_digit a = true -> forallb is_digit b = true ->
  string_ltb a b
  = (fold_left (fun acc c => 10 * acc + digit_value c) a x
     <? fold_left (fun acc c => 10 * acc + digit_value c) b x).
Proof.
  induction a as [| c a IH]; intros [| d b] x Hlen Ha Hb; try discriminate.
  - simpl. symmetry. apply N.ltb_irrefl.
  - simpl in Ha, Hb, Hlen. injection Hlen as Hlen.
    apply andb_true_iff in Ha as [Hc Ha]. apply andb_true_iff in Hb as [Hd Hb].
    cbn [string_ltb fold_left].
    pose proof (decimal_bounds a (10 * x + digit_value c) Ha) as Ba.
    pose proof (decimal_bounds b (10 * x + digit_value d) Hb) as Bb.
    cbv zeta in Ba, Bb. rewrite Hlen in Ba.
    apply is_digit_range in Hc, Hd. unfold digit_value in *.
    set (p := 10 ^ N.of_nat (length b)) in *.
    destruct (N.ltb_spec c d) as [Hlt | Hge]; simpl.
    + symmetry. apply N.ltb_lt. nia.
    + destruct (N.eqb_spec c d) as [-> | Hne]; simpl.
      * apply IH; assumption.
      * symmetry. apply N.ltb_ge. nia.
Qed.

(** Two strings that start with parts of one length are ordered by these
    parts, or by what follows when the parts are the same. *)
Lemma string_ltb_app a : forall a' b b',
  length a = length a' ->
  string_ltb (a ++ b) (a' ++ b')
  = if decide (a = a') then string_ltb b b' else string_ltb a a'.
Proof.
  induction a as [| c a IH]; intros [| d a'] b b' Hlen; try discriminate.
  - reflexivity.
  - simpl in Hlen. injection Hlen as Hlen. cbn [app string_ltb].
    rewrite (IH a' b b' Hlen).
    destruct (N.ltb_spec c d) as [Hlt | Hge]; simpl.
    + destruct (decide (c :: a = d :: a')) as [E | _]; [| reflexivity].
      inversion E. lia.
    + destruct (N.eqb_spec c d) as [-> | Hne]; simpl.
      * destruct (decide (a = a')) as [-> | Hna].
        -- rewrite decide_True by reflexivity. reflexivity.
        -- rewrite decide_False by congruence. reflexivity.
      * rewrite decide_False by congruence. reflexivity.
Qed.

(** The order and the equality of two parts of the stamp, from the numbers
    they print. *)
Lemma part_order (a b : jsstring) (n m : N) :
  length a = length b ->
  forallb is_digit a = true -> forallb is_digit b = true ->
  decimal a = n -> decimal b = m ->
  string_ltb a b = (n <? m) /\ (a = b <-> n = m).
Proof.
  intros Hlen Ha Hb <- <-. split.
  - apply (string_ltb_digits a b 0); assumption.
  - split; [intros ->; reflexivity |]. intros E.
    pose proof (string_ltb_digits a b 0 Hlen Ha Hb) as L1.
    pose proof (string_ltb_digits b a 0 (eq_sym Hlen) Hb Ha) as L2.
    fold (decimal a) (decimal b) in L1, L2. rewrite E, N.ltb_irrefl in L1, L2.
    clear -Hlen L1 L2. revert b Hlen L1 L2.
    induction a as [| c a IH]; intros [| d b] Hlen L1 L2; try discriminate;
      [reflexivity |].
    simpl in *. injection Hlen as Hlen.
    apply orb_false_iff in L1 as [L1 L1']. apply orb_false_iff in L2 as [L2 L2'].
    apply N.ltb_ge in L1, L2. assert (c = d) as -> by lia.
    rewrite N.eqb_refl in L1', L2'. simpl in *. f_equal. apply IH; assumption.
Qed.
End Stamp.

Lemma stamp_part_step (a a' b b' : jsstring) (n m : N) (R : bool) :
  length a = length a' ->
  string_ltb a a' = (n <? m)%N -> (a = a' <-> n = m) ->
  string_ltb b b' = R ->
  string_ltb (a ++ b) (a' ++ b') = (n <? m)%N || ((n =? m)%N && R).
Proof.
  intros Hlen Hlt Heq HR. rewrite (string_ltb_app a a' b b' Hlen).
  destruct (N.eqb_spec n m) as [E | NE].
  - rewrite decide_True by (apply Heq, E). subst m.
    rewrite N.ltb_irrefl. simpl. exact HR.
  - rewrite decide_False by (intros E; apply NE, Heq, E).
    rewrite Hlt, andb_false_l, orb_false_r. reflexivity.
Qed.

Lemma stamp_separator_step (sep b b' : jsstring) :
  string_ltb (sep ++ b) (sep ++ b') = string_ltb b b'.
Proof.
  rewrite (string_ltb_app sep sep b b' eq_refl). rewrite decide_True; reflexivity.
Qed.

Lemma pad_order n m :
  (n < 100)%N -> (m < 100)%N ->
  length (pad n) = length (pad m)
  /\ string_ltb (pad n) (pad m) = (n <? m)%N /\ (pad n = pad m <-> n = m).
Proof.
  intros Hn Hm.
  destruct (pad_two_digits n Hn) as (Ln & Dn & Vn).
  destruct (pad_two_digits m Hm) as (Lm & Dm & Vm).
  split; [congruence |]. apply part_order; try assumption. congruence.
Qed.

Lemma year_order y y' :
  (1000 <= y < 10000)%N -> (1000 <= y' < 10000)%N ->
  length (ToString y) = length (ToString y')
  /\ string_ltb (ToString y) (ToString y') = (y <? y')%N
  /\ (ToString y = ToString y' <-> y = y').
Proof.
  intros Hy Hy'.
  destruct (year_four_digits y Hy) as (Ln & Dn & Vn).
  destruct (year_four_digits y' Hy') as (Lm & Dm & Vm).
  split; [congruence |]. apply part_order; try assumption. congruence.
Qed.

(** X20: for times with a year of four digits, the stamps are ordered, as
    strings, like the times they are taken from: names built from them
    sort by time. *)
Theorem stamps_sort_by_time d d' :
  on_the_clock d -> on_the_clock d' ->
  string_ltb (nowStamp d) (nowStamp d') = fields_ltb (time_fields d) (time_fields d').
Proof.
  intros (Hy & Hmo & Hd & Hh & Hmi & Hs) (Hy' & Hmo' & Hd' & Hh' & Hmi' & Hs').
  destruct (year_order (fullYear d) (fullYear d') Hy Hy') as (Ly & Oy & Ey).
  destruct (pad_order (month d + 1) (month d' + 1)) as (Lmo & Omo & Emo); [lia | lia |].
  destruct (pad_order (date d) (date d')) as (Ld & Od & Ed); [lia | lia |].
  destruct (pad_order (hours d) (hours d')) as (Lh & Oh & Eh); [lia | lia |].
  destruct (pad_order (minutes d) (minutes d')) as (Lmi & Omi & Emi); [lia | lia |].
  destruct (pad_order (seconds d) (seconds d')) as (Ls & Os & Es); [lia | lia |].
  unfold nowStamp, time_fields. cbn [fields_ltb].
  rewrite <- (app_nil_r (pad (seconds d))), <- (app_nil_r (pad (seconds d'))).
  rewrite andb_false_r, orb_false_r.
  assert (Mo : ((month d + 1 <? month d' + 1) = (month d <? month d'))%N).
  { destruct (N.ltb_spec (month d) (month d')); [apply N.ltb_lt | apply N.ltb_ge]; lia. }
  assert (Me : ((month d + 1 =? month d' + 1) = (month d =? month d'))%N).
  { destruct (N.eqb_spec (month d) (month d')); [apply N.eqb_eq | apply N.eqb_neq]; lia. }
  rewrite <- Mo, <- Me.
  apply stamp_part_step; [assumption .. |]. rewrite stamp_separator_step.
  apply stamp_part_step; [assumption .. |]. rewrite stamp_separator_step.
  apply stamp_part_step; [assumption .. |]. rewrite stamp_separator_step.
  apply stamp_part_step; [assumption .. |]. rewrite stamp_separator_step.
  apply stamp_part_step; [assumption .. |]. rewrite stamp_separator_step.
  rewrite (stamp_part_step _ _ [] [] _ _ false Ls Os Es eq_refl).
  rewrite andb_false_r, orb_false_r. reflexivity.
Qed.

Lemma stamps_sort_by_time_example :
  string_ltb (nowStamp (mkTime 2024 11 31 23 59 59)) (nowStamp (mkTime 2025 0 1 0 0 0))
  = fields_ltb [2024; 11; 31; 23; 59; 59]%N [2025; 0; 1; 0; 0; 0]%N.
Proof.
  apply (stamps_sort_by_time (mkTime 2024 11 31 23 59 59) (mkTime 2025 0 1 0 0 0));
    unfold on_the_clock; simpl; lia.
Defined.

(** X21: for times with a year of four digits, the stamp has 19
    characters, and two stamps are the same only for the same second: the
    files of two runs can take each other's names only then. *)
Theorem stamp_names_the_second d d' :
  on_the_clock d -> on_the_clock d' ->
  length (nowStamp d) = 19
  /\ (nowStamp d = nowStamp d' -> d = d').
Proof.
  intros (Hy & Hmo & Hd & Hh & Hmi & Hs) (Hy' & Hmo' & Hd' & Hh' & Hmi' & Hs').
  destruct (year_order (fullYear d) (fullYear d') Hy Hy') as (Ly & _ & Ey).
  destruct (pad_order (month d + 1) (month d' + 1)) as (Lmo & _ & Emo); [lia | lia |].
  destruct (pad_order (date d) (date d')) as (Ld & _ & Ed); [lia | lia |].
  destruct (pad_order (hours d) (hours d')) as (Lh & _ & Eh); [lia | lia |].
  destruct (pad_order (minutes d) (minutes d')) as (Lmi & _ & Emi); [lia | lia |].
  destruct (pad_order (seconds d) (seconds d')) as (Ls & _ & Es); [lia | lia |].
  split.
  - unfold nowStamp. rewrite !length_app.
    destruct (year_four_digits (fullYear d) Hy) as (-> & _).
    destruct (pad_two_digits (month d + 1)) as (-> & _); [lia |].
    destruct (pad_two_digits (date d)) as (-> & _); [lia |].
    destruct (pad_two_digits (hours d)) as (-> & _); [lia |].
    destruct (pad_two_digits (minutes d)) as (-> & _); [lia |].
    destruct (pad_two_digits (seconds d)) as (-> & _); [lia |].
    reflexivity.
  - unfold nowStamp. intros E.
    apply app_inj_1 in E as [E1 E]; [| exact Ly].
    apply app_inj_1 in E as [_ E]; [| reflexivity].
    apply app_inj_1 in E as [E2 E]; [| exact Lmo].
    apply app_inj_1 in E as [_ E]; [| reflexivity].
    apply app_inj_1 in E as [E3 E]; [| exact Ld].
    apply app_inj_1 in E as [_ E]; [| reflexivity].
    apply app_inj_1 in E as [E4 E]; [| exact Lh].
    apply app_inj_1 in E as [_ E]; [| reflexivity].
    apply app_inj_1 in E as [E5 E6]; [| exact Lmi].
    apply app_inj_1 in E6 as [_ E6]; [| reflexivity].
    apply Ey in E1. apply Emo in E2. apply Ed in E3. apply Eh in E4.
    apply Emi in E5. apply Es in E6.
    destruct d, d'; simpl in *. f_equal; lia.
Qed.

Lemma stamp_names_the_second_example :
  length (nowStamp (mkTime 2025 0 9 7 5 3)) = 19.
Proof.
  apply (stamp_names_the_second (mkTime 2025 0 9 7 5 3) (mkTime 2025 0 9 7 5 3));
    unfold on_the_clock; simpl; lia.
Defined.

(* ===================================================================== *)
(** * The failure context                                                  *)
(* ===================================================================== *)

(** X22: the context of a failure at [idx] has at most [2 * window + 1]
    entries; each entry is an item of the list with its own 1-based
    position, at most [window] places from [idx]; and the item at [idx],
    when there is one, is among them with position [idx + 1]. At either end
    of the list the window is cut, never out of bounds. *)
Theorem failureContext_is_a_window items idx window :
  length (failureContext items idx window) <= 2 * window + 1
  /\ (forall a x, (a, x) ∈ failureContext items idx window ->
        1 <= a /\ items !! (a - 1) = Some x
        /\ idx <= (a - 1) + window /\ a - 1 <= idx + window)
  /\ (forall x, items !! idx = Some x ->
        (idx + 1, x) ∈ failureContext items idx window).
Proof.
  unfold failureContext, slice. split; [| split].
  - rewrite length_imap, length_take, length_drop. lia.
  - intros a x Hin. apply elem_of_lookup_imap in Hin as (i & y & E & Hi).
    inversion E; subst a x. apply lookup_take_Some in Hi as [Hi Hlt].
    rewrite lookup_drop in Hi.
    replace (idx - window + i + 1 - 1) with (idx - window + i) by lia.
    split; [lia |]. split; [exact Hi |]. lia.
  - intros x Hx. apply lookup_lt_Some in Hx as Hlt. apply elem_of_lookup_imap.
    exists (idx - (idx - window)), x. split; [f_equal; lia |].
    apply lookup_take_Some. split; [| lia].
    rewrite lookup_drop. replace (idx - window + (idx - (idx - window))) with idx by lia.
    exact Hx.
Qed.

Lemma failureContext_is_a_window_example :
  (3, item_aged "3" (Some (Finite 90))) ∈ failureContext ages_60_120_90_200 2 1.
Proof.
  apply (proj2 (proj2 (failureContext_is_a_window ages_60_120_90_200 2 1))).
  reflexivity.
Defined.

(* ===================================================================== *)
(** * The runs above, once more                                            *)
(* ===================================================================== *)

Lemma passed_run_exit_code_example :
  status (run artifacts_always feed_of_120) = PASS
  /\ exitCode (run artifacts_always feed_of_120) = Some 0.
Proof.
  destruct (passed_run_exit_code artifacts_always feed_of_120) as (Hstatus & Hcode & _).
  - vm_compute. reflexivity.
  - split; [exact Hstatus |]. apply Hcode. intros [_ H]. discriminate H.
Defined.
